(** * KRaster / Linx: regions, neighbourhood filters, resampling and affinities

    A shallow embedding of the region algebra (Box, Mask, Grid), of the
    concrete filtering kernels of [Linx/Transforms/Filters.h], of the
    boundary and interpolation policies of
    [Linx/Transforms/impl/ResamplingMethods.h] and of [Affinity].

    Conventions.
    - [Index] (a C++ [long]) is [Z]; signed overflow is undefined in C++
      and is outside the model.
    - [Position<N>] and [Vector<T, N>] are sequences; operations that C++
      types with one dimension [N] for both operands carry a size premise
      here.
    - [double] is the kernel's binary64 ([PrimFloat.float]) wherever the
      code's result depends on rounding or on special values
      (resampling); the affinity, whose linear algebra is delegated to an
      external backend, is stated over an arbitrary field.
    - An undefined read (out of the stored domain, past the end of a
      buffer) is [None]. *)

Set Warnings "-notation-overridden,-ambiguous-paths,-notation-incompatible-prefix".
Set Warnings "-deprecated-since-9.3".
From Stdlib Require Import ZArith Lia Floats.
From HB Require Import structures.
From mathcomp Require Import ssreflect ssrfun ssrbool eqtype ssrnat seq path div.
From mathcomp Require Import choice fintype bigop order ssralg ssrnum rat matrix.

Set Implicit Arguments.
Unset Strict Implicit.
Unset Printing Implicit Defensive.

(** [Z] with its decidable equality, so that positions can be compared and
    searched for. *)
HB.instance Definition _ := hasDecEq.Build Z Z.eqb_spec.

(** Decide a goal about boolean comparisons on [Z] by cases on each of
    them. *)
Ltac zbool :=
  repeat match goal with
  | |- context [(?a <=? ?b)%Z] => case: (Z.leb_spec a b) => ?
  | |- context [(?a <? ?b)%Z] => case: (Z.ltb_spec a b) => ?
  end; rewrite /=; try done; try lia.

(** ** Small helpers on sequences *)

(** Checked read of the [i]-th element of a buffer. *)
Definition onth (T : Type) (s : seq T) (i : nat) : option T :=
  nth None [seq Some x | x <- s] i.

(** All the reads of a sequence succeed, or the whole fails. *)
Fixpoint oseq (T : Type) (s : seq (option T)) : option (seq T) :=
  match s with
  | [::] => Some [::]
  | Some x :: s' => if oseq s' is Some r then Some (x :: r) else None
  | None :: _ => None
  end.

(** The integers [lo, lo+1, ..., hi] (none when [hi < lo]). *)
Definition zrange (lo hi : Z) : seq Z :=
  [seq (lo + Z.of_nat k)%Z | k <- iota 0 (Z.to_nat (hi - lo + 1))].

Lemma onth_size (T : Type) (s : seq T) (i : nat) : size s <= i -> onth s i = None.
Proof. by move=> le_s_i; rewrite /onth nth_default // size_map. Qed.

Lemma onth_nth (T : Type) (x0 : T) (s : seq T) (i : nat) :
  i < size s -> onth s i = Some (nth x0 s i).
Proof. by move=> lt_i_s; rewrite /onth (nth_map x0). Qed.

Lemma mem_zrange (lo hi k : Z) : (k \in zrange lo hi) = ((lo <=? k)%Z && (k <=? hi)%Z).
Proof.
apply/mapP/andP => [[n]|[/Z.leb_le lo_k /Z.leb_le k_hi]].
  rewrite mem_iota add0n => /andP [_ /ltP n_lt] ->.
  by split; apply/Z.leb_le; lia.
exists (Z.to_nat (k - lo)); last by lia.
by rewrite mem_iota add0n /=; apply/ltP; lia.
Qed.

Lemma size_zrange (lo hi : Z) : size (zrange lo hi) = Z.to_nat (hi - lo + 1).
Proof. by rewrite /zrange size_map size_iota. Qed.

(** * Coordinates: Position *)

Definition Index := Z.
Definition Position := seq Index.

Module Position.

(** Coordinate-wise combination of two positions of one dimension. *)
Definition zip_with (op : Z -> Z -> Z) (p q : Position) : Position :=
  [seq op x.1 x.2 | x <- zip p q].

Definition add : Position -> Position -> Position := zip_with Z.add.
Definition sub : Position -> Position -> Position := zip_with Z.sub.
Definition max : Position -> Position -> Position := zip_with Z.max.
Definition min : Position -> Position -> Position := zip_with Z.min.

(** [Position<N>::zero()]. *)
Definition zero (n : nat) : Position := nseq n 0%Z.

Lemma size_zip_with op p q : size q = size p -> size (zip_with op p q) = size p.
Proof. by move=> eq_sz; rewrite /zip_with size_map size_zip eq_sz minnn. Qed.

Lemma add_sub p v : size v = size p -> sub (add p v) v = p.
Proof.
rewrite /sub /add /zip_with.
elim: p v => [|x p IH] [|y v] //= [/IH ->].
by congr (_ :: _); lia.
Qed.

Lemma sub_add p v : size v = size p -> add (sub p v) v = p.
Proof.
rewrite /sub /add /zip_with.
elim: p v => [|x p IH] [|y v] //= [/IH ->].
by congr (_ :: _); lia.
Qed.

Lemma sub_zero p n : n = size p -> sub p (zero n) = p.
Proof.
move=> ->; rewrite /sub /zip_with /zero.
by elim: p => [|x p IH] //=; rewrite IH Z.sub_0_r.
Qed.

End Position.

(** * Regions: Box *)

Module Box.

(** Modelled from the spec: [Box<N>] and its operations ([Linx/Data/Box.h] is
    not in the source tree).  A box is a pair of inclusive corners; it stands
    for the dense product of the per-axis integer ranges
    [front[i] .. back[i]] and is empty as soon as one range is.  Translation
    shifts both corners, intersection clamps them, iteration is row-major
    with the last axis varying fastest. *)
Record t := mk { front : Position; back : Position }.

Definition dimension (b : t) : nat := size (front b).

(** [length(i) = back[i] - front[i] + 1]. *)
Definition length (b : t) (i : nat) : Z :=
  (nth 0 (back b) i - nth 0 (front b) i + 1)%Z.

Definition shape (b : t) : Position :=
  Position.zip_with (fun f k => (k - f + 1)%Z) (front b) (back b).

(** The corners have one dimension. *)
Definition wf (b : t) : bool := size (back b) == size (front b).

Fixpoint between (f k p : Position) : bool :=
  match f, k, p with
  | x :: f', y :: k', z :: p' => [&& (x <=? z)%Z, (z <=? y)%Z & between f' k' p']
  | [::], [::], [::] => true
  | _, _, _ => false
  end.

Definition contains (b : t) (p : Position) : bool := between (front b) (back b) p.

(** Modelled from the spec: [Box::operator+=] and [Box::operator-=] with a
    vector shift the front and the back. *)
Definition add_assign (b : t) (v : Position) : t :=
  mk (Position.add (front b) v) (Position.add (back b) v).

Definition sub_assign (b : t) (v : Position) : t :=
  mk (Position.sub (front b) v) (Position.sub (back b) v).

(** Modelled from the spec: [Box::operator&=] clamps the corners, the front
    up and the back down, to those of the other box. *)
Definition and_assign (b c : t) : t :=
  mk (Position.max (front b) (front c)) (Position.min (back b) (back c)).

(** Modelled from the spec: the iteration over a box ([BoxIterator]), in
    row-major order, the last axis varying fastest. *)
Fixpoint positions_between (f k : Position) : seq Position :=
  match f, k with
  | x :: f', y :: k' =>
      flatten [seq [seq z :: q | q <- positions_between f' k'] | z <- zrange x y]
  | _, _ => [:: [::]]
  end.

Definition positions (b : t) : seq Position := positions_between (front b) (back b).

(** Number of positions of a shape; an axis of non-positive length empties
    it. *)
Fixpoint volume (shape : Position) : nat :=
  if shape is l :: shape' then Z.to_nat l * volume shape' else 1.

Definition size (b : t) : nat := volume (shape b).

Lemma between_size f k p :
  between f k p -> seq.size p = seq.size f /\ seq.size k = seq.size f.
Proof.
elim: f k p => [|x f IH] [|y k] [|z p] //= /and3P [_ _ /IH [-> ->]].
by [].
Qed.

Lemma mem_positions_between f k p :
  seq.size k = seq.size f -> (p \in positions_between f k) = between f k p.
Proof.
elim: f k p => [|x f IH] [|y k] p //=; first by case: p.
case=> eq_sz; apply/flatten_mapP/idP => [[z]|].
  rewrite mem_zrange => /andP [x_z z_y] /mapP [q q_in ->] /=.
  by rewrite x_z z_y -IH.
case: p => [|z p] //= /and3P [x_z z_y p_in].
exists z; first by rewrite mem_zrange x_z z_y.
by apply/mapP; exists p; rewrite ?IH.
Qed.

Lemma size_flatten_rows (T U : Type) (g : T -> U -> U) (zs : seq T) (P : seq U) :
  seq.size (flatten [seq [seq g z q | q <- P] | z <- zs]) = seq.size zs * seq.size P.
Proof.
by elim: zs => [|z zs IH] //=; rewrite size_cat size_map IH mulSn.
Qed.

Lemma size_positions_between f k :
  seq.size k = seq.size f ->
  seq.size (positions_between f k) = volume (Position.zip_with (fun a b => (b - a + 1)%Z) f k).
Proof.
elim: f k => [|x f IH] [|y k] //= [eq_sz].
by rewrite size_flatten_rows size_zrange IH.
Qed.

Lemma nth_flatten_rows (T : Type) (x0 : T) (m : nat) (rows : seq (seq T)) (a j : nat) :
  all (fun r => seq.size r == m) rows -> j < m -> a < seq.size rows ->
  nth x0 (flatten rows) (a * m + j) = nth x0 (nth [::] rows a) j.
Proof.
move=> + lt_j; elim: rows a => [|r rows IH] [|a] //= /andP [/eqP sz_r all_m] lt_a.
  by rewrite mul0n add0n nth_cat sz_r lt_j.
rewrite nth_cat sz_r mulSn -addnA ltnNge leq_addr /=.
by rewrite addKn IH.
Qed.

Lemma mem_positions b p : wf b -> (p \in positions b) = contains b p.
Proof. by move=> /eqP; exact: mem_positions_between. Qed.

Lemma translate_back b v : wf b -> seq.size v = dimension b -> sub_assign (add_assign b v) v = b.
Proof.
case: b => f k /eqP /= eq_sz eq_v.
by rewrite /sub_assign /add_assign /= !Position.add_sub // eq_sz.
Qed.

Lemma translate_forth b v : wf b -> seq.size v = dimension b -> add_assign (sub_assign b v) v = b.
Proof.
case: b => f k /eqP /= eq_sz eq_v.
by rewrite /sub_assign /add_assign /= !Position.sub_add // eq_sz.
Qed.

(** Clamping keeps the positions that lie in both boxes. *)
Lemma between_max_min f k cf ck p :
  seq.size k = seq.size f -> seq.size cf = seq.size f -> seq.size ck = seq.size f ->
  between (Position.max f cf) (Position.min k ck) p = between f k p && between cf ck p.
Proof.
rewrite /Position.max /Position.min /Position.zip_with.
elim: f k cf ck p => [|x f IH] [|y k] [|u cf] [|v ck] [|z p] //=.
move=> [sz_k] [sz_cf] [sz_ck]; rewrite IH //.
have -> : (Z.max x u <=? z)%Z = (x <=? z)%Z && (u <=? z)%Z by zbool.
have -> : (z <=? Z.min y v)%Z = (z <=? y)%Z && (z <=? v)%Z by zbool.
by case: (x <=? z)%Z; case: (u <=? z)%Z; case: (z <=? y)%Z; case: (z <=? v)%Z;
   rewrite /= ?andbF.
Qed.

Lemma contains_and b c p :
  wf b -> wf c -> dimension c = dimension b ->
  contains (and_assign b c) p = contains b p && contains c p.
Proof.
case: b c => [f k] [cf ck] /eqP /= sz_k /eqP /= sz_ck; rewrite /dimension /= => sz_cf.
by apply: between_max_min; rewrite ?sz_ck.
Qed.

Lemma wf_and b c :
  wf b -> wf c -> dimension c = dimension b -> wf (and_assign b c).
Proof.
case: b c => [f k] [cf ck] /eqP /= sz_k /eqP /= sz_ck; rewrite /dimension /= => sz_cf.
have sz_ck' : seq.size ck = seq.size k by rewrite sz_ck sz_cf sz_k.
by rewrite /wf /= !Position.size_zip_with // sz_k.
Qed.

Lemma wf_sub b v : wf b -> seq.size v = dimension b -> wf (sub_assign b v).
Proof.
case: b => [f k] /eqP /= sz_k; rewrite /dimension /= => sz_v.
have sz_v' : seq.size v = seq.size k by rewrite sz_v sz_k.
by rewrite /wf /= !Position.size_zip_with // sz_k.
Qed.

(** Translating a box keeps its shape. *)
Lemma shape_sub b v : wf b -> seq.size v = dimension b -> shape (sub_assign b v) = shape b.
Proof.
case: b => [f k] /eqP /=; rewrite /dimension /shape /sub_assign /=.
rewrite /Position.sub /Position.zip_with.
elim: f k v => [|x f IH] [|y k] [|z v] //= [sz_k] [sz_v].
by rewrite IH //; congr (_ :: _); lia.
Qed.

End Box.

(** * Raster *)

Module Raster.

(** Modelled from the spec: [Raster<T, N>] ([Linx/Data/Raster.h] is not in
    the source tree).  A raster is a contiguous buffer indexed by position
    through the row-major offset of the position in the shape; its domain is
    the box from zero to [shape - 1]; a read outside the domain is
    undefined. *)
Record t (T : Type) := mk { shape : Position; data : seq T }.

(** Modelled from the spec: the row-major offset of [p] in a raster of shape
    [shape] ([Raster::index]); [None] when [p] is not in the domain. *)
Fixpoint index (shape p : Position) : option nat :=
  match shape, p with
  | l :: shape', x :: p' =>
      if (0 <=? x)%Z && (x <? l)%Z then
        if index shape' p' is Some i then Some (Z.to_nat x * Box.volume shape' + i)
        else None
      else None
  | [::], [::] => Some 0
  | _, _ => None
  end.

(** [raster[p]]. *)
Definition get (T : Type) (r : t T) (p : Position) : option T :=
  if index (shape r) p is Some i then onth (data r) i else None.

Definition contains (T : Type) (r : t T) (p : Position) : bool :=
  isSome (index (shape r) p).

(** The buffer holds one value per position of the domain. *)
Definition wf (T : Type) (r : t T) : bool := size (data r) == Box.volume (shape r).

(** Modelled from the spec: [raster(region).copy()] ([Raster::operator()]
    with a box, then [Patch::copy]), the values of [raster] over a box of
    its domain, as a raster of the shape of the box. *)
Definition patch_copy (T : Type) (r : t T) (region : Box.t) : option (t T) :=
  if oseq [seq get r p | p <- Box.positions region] is Some d
  then Some (mk (Box.shape region) d)
  else None.

Lemma index_lt shape p i : index shape p = Some i -> i < Box.volume shape.
Proof.
elim: shape p i => [|l shape IH] [|x p] i //=; first by case=> <-.
case: ifP => // /andP [/Z.leb_le x_ge0 /Z.ltb_lt x_lt].
case E: (index shape p) => [j|] // [<-].
have /IH /ltP lt_j := E.
have lt_x : (Z.to_nat x < Z.to_nat l)%coq_nat by lia.
by apply/ltP; rewrite -multE -plusE; nia.
Qed.

Lemma index_size shape p i : index shape p = Some i -> size p = size shape.
Proof.
elim: shape p i => [|l shape IH] [|x p] i //=.
case: ifP => // _; case E: (index shape p) => [j|] // _.
by rewrite (IH _ _ E).
Qed.

(** The position of rank [index q] in the iteration over a box is the corner
    of the box moved by [q]. *)
Lemma nth_positions_between f k q i :
  size k = size f ->
  index (Position.zip_with (fun a b => (b - a + 1)%Z) f k) q = Some i ->
  nth [::] (Box.positions_between f k) i = Position.add f q.
Proof.
elim: f k q i => [|x f IH] [|y k] [|z q] i //=; first by move=> _ [<-].
case=> eq_sz; case: ifP => // /andP [/Z.leb_le z_ge0 /Z.ltb_lt z_lt].
case E: (index _ q) => [j|] // [<-].
have lt_j := index_lt E.
have lt_z : Z.to_nat z < size (zrange x y).
  by rewrite size_zrange; apply/ltP; lia.
rewrite (@Box.nth_flatten_rows _ _ (Box.volume
           (Position.zip_with (fun a b => (b - a + 1)%Z) f k))) //.
- apply/allP => r /mapP [w _ ->].
  by rewrite size_map Box.size_positions_between.
- by rewrite size_map.
rewrite (nth_map 0%Z) // (nth_map [::]) ?Box.size_positions_between //.
rewrite (IH _ _ _ eq_sz E).
rewrite /zrange (nth_map 0) ?size_iota ?nth_iota ?add0n -?size_zrange //.
by rewrite /Position.add /Position.zip_with /=; congr (_ :: _); lia.
Qed.

Lemma oseq_some (T : Type) (s : seq (option T)) (d : seq T) :
  oseq s = Some d -> s = [seq Some x | x <- d].
Proof.
elim: s d => [|[x|] s IH] d //=; first by case=> <-.
by case E: (oseq s) => [r|] // [<-] /=; rewrite (IH _ E).
Qed.

Lemma oseq_all_some (T : eqType) (U : Type) (f : T -> option U) (s : seq T) :
  (forall x, x \in s -> isSome (f x)) ->
  exists d, oseq [seq f x | x <- s] = Some d.
Proof.
elim: s => [|x s IH] Hs /=; first by exists [::].
have [|d ->] := IH; first by move=> y y_s; apply: Hs; rewrite inE y_s orbT.
by case: (f x) (Hs x (mem_head _ _)) => // u _; exists (u :: d).
Qed.

(** Reading a copied patch is reading the raster at the moved position. *)
Lemma get_patch_copy (T : Type) (r c : t T) (region : Box.t) (q : Position) :
  Box.wf region -> patch_copy r region = Some c ->
  isSome (index (Box.shape region) q) ->
  get c q = get r (Position.add (Box.front region) q).
Proof.
move=> /eqP wf_reg; rewrite /patch_copy.
case E: (oseq _) => [d|] // [<-]; rewrite /get /=.
case Ei: (index _ q) => [i|] // _.
have lt_i : i < size (Box.positions region).
  by rewrite Box.size_positions_between ?(index_lt Ei).
rewrite -(nth_positions_between wf_reg Ei).
rewrite /onth -(oseq_some E) (nth_map [::]) //.
Qed.

Lemma get_some (T : Type) (r : t T) (p : Position) :
  wf r -> contains r p -> isSome (get r p).
Proof.
rewrite /wf /contains /get => /eqP sz_d.
case E: (index _ p) => [i|] // _.
have := index_lt E; rewrite -sz_d => lt_i.
by case: (data r) lt_i => [|x0 d] // lt_i; rewrite (onth_nth x0).
Qed.

Lemma size_patch_copy (T : Type) (r c : t T) (region : Box.t) :
  Box.wf region -> patch_copy r region = Some c -> wf c.
Proof.
move=> /eqP wf_reg; rewrite /patch_copy.
case E: (oseq _) => [d|] // [<-]; rewrite /wf /=.
have := congr1 size (oseq_some E); rewrite !size_map => <-.
by rewrite Box.size_positions_between.
Qed.

End Raster.

(** * Regions: Mask ([Linx/Data/Mask.h]) *)

Module Mask.

(** A box and one flag per position of the box. *)
Record t := mk { m_box : Box.t; m_flags : Raster.t bool }.

(** [Mask(box, flag)]. *)
Definition make (box : Box.t) (flag : bool) : t :=
  mk box (Raster.mk (Box.shape box) (nseq (Box.size box) flag)).

(** [Mask(box, flags)]: the flags are copied in iteration order. *)
Definition of_flags (box : Box.t) (flags : seq bool) : t :=
  mk box (Raster.mk (Box.shape box) flags).

Definition box (m : t) : Box.t := m_box m.
Definition flags (m : t) : Raster.t bool := m_flags m.
Definition dimension (m : t) : nat := Box.dimension (m_box m).

(** [size()]: the number of flags set. *)
Definition size (m : t) : nat := count id (Raster.data (m_flags m)).

(** The class invariant: the flags have the shape of the box. *)
Definition wf (m : t) : bool :=
  [&& Box.wf (m_box m), Raster.shape (m_flags m) == Box.shape (m_box m)
    & Raster.wf (m_flags m)].

(** [operator[](position) const]. *)
Definition get (m : t) (position : Position) : option bool :=
  if Box.contains (m_box m) position
  then Raster.get (m_flags m) (Position.sub position (Box.front (m_box m)))
  else Some false.

(** Modelled from the spec: the iteration over a mask ([MaskIterator.h] is
    not in the source tree) yields the flagged positions of the box, in the
    order of the box. *)
Definition positions (m : t) : seq Position :=
  [seq p <- Box.positions (m_box m) | get m p == Some true].

(** [operator==]. *)
Definition eqb (m other : t) : bool :=
  [&& Box.front (m_box m) == Box.front (m_box other),
      Box.back (m_box m) == Box.back (m_box other),
      Raster.shape (m_flags m) == Raster.shape (m_flags other)
    & Raster.data (m_flags m) == Raster.data (m_flags other)].

(** [operator&=(box)]. *)
Definition and_assign (m : t) (box : Box.t) : option t :=
  let front := Box.front (m_box m) in
  let m_box' := Box.and_assign (m_box m) box in
  if Raster.patch_copy (m_flags m) (Box.sub_assign m_box' front) is Some m_flags'
  then Some (mk m_box' m_flags')
  else None.

(** [operator&(region, bounds)]: clamp a copy. *)
Definition and_ (region : t) (bounds : Box.t) : option t := and_assign region bounds.

(** [operator+=(vector)] and [operator-=(vector)]. *)
Definition add_assign (m : t) (vector : Position) : t :=
  mk (Box.add_assign (m_box m) vector) (m_flags m).

Definition sub_assign (m : t) (vector : Position) : t :=
  mk (Box.sub_assign (m_box m) vector) (m_flags m).

(** [m + v] and [m - v] ([boost::additive]): the assignment on a copy. *)
Definition add (m : t) (vector : Position) : t := add_assign m vector.
Definition sub (m : t) (vector : Position) : t := sub_assign m vector.

Lemma eqbP (m other : t) : reflect (m = other) (eqb m other).
Proof.
case: m other => [[f k] [s d]] [[f' k'] [s' d']]; rewrite /eqb /=.
apply: (iffP and4P) => [[/eqP -> /eqP -> /eqP -> /eqP ->] //|[-> -> -> ->]].
by split.
Qed.

(** The clamped box, seen from the front of the mask, lies in the domain of
    the flags. *)
Lemma region_in_flags f k cf ck q :
  seq.size k = seq.size f -> seq.size cf = seq.size f -> seq.size ck = seq.size f ->
  Box.between (Position.sub (Position.max f cf) f) (Position.sub (Position.min k ck) f) q ->
  isSome (Raster.index (Position.zip_with (fun a b => (b - a + 1)%Z) f k) q).
Proof.
rewrite /Position.sub /Position.max /Position.min /Position.zip_with.
elim: f k cf ck q => [|x f IH] [|y k] [|u cf] [|v ck] [|z q] //=.
move=> [sz_k] [sz_cf] [sz_ck] /and3P [/Z.leb_le le1 /Z.leb_le le2 /IH].
move=> /(_ sz_k sz_cf sz_ck).
case: (Raster.index _ q) => // i _.
by have -> : (0 <=? z)%Z && (z <? y - x + 1)%Z by zbool.
Qed.

(** A position of a box, seen from the front of the box, lies in the shape of
    the box wherever the box has been moved. *)
Lemma index_in_region a b f p :
  seq.size f = seq.size a -> Box.between a b p ->
  isSome (Raster.index (Position.zip_with (fun a b => (b - a + 1)%Z)
                          (Position.sub a f) (Position.sub b f))
            (Position.sub p a)).
Proof.
rewrite /Position.sub /Position.zip_with.
elim: a b f p => [|x a IH] [|y b] [|u f] [|z p] //=.
move=> [sz_f] /and3P [/Z.leb_le le1 /Z.leb_le le2 /(IH _ _ _ sz_f)].
case: (Raster.index _ _) => // i _.
by have -> : (0 <=? z - x)%Z && (z - x <? y - u - (x - u) + 1)%Z by zbool.
Qed.

Lemma add_sub_sub a f p :
  seq.size f = seq.size a -> seq.size p = seq.size a ->
  Position.add (Position.sub a f) (Position.sub p a) = Position.sub p f.
Proof.
rewrite /Position.add /Position.sub /Position.zip_with.
elim: a f p => [|x a IH] [|u f] [|z p] //= [sz_f] [sz_p].
by rewrite IH //; congr (_ :: _); lia.
Qed.

(** On a well-formed mask every position can be read. *)
Lemma get_wf (m : t) (p : Position) : wf m -> isSome (get m p).
Proof.
case: m => [[f k] [s d]] /and3P /= [/eqP sz_k /eqP eq_s wf_d]; rewrite /get /=.
case E: (Box.contains _ p) => //; apply: Raster.get_some => //.
rewrite /Raster.contains /= eq_s /Box.shape /=.
have := @index_in_region f k (Position.zero (seq.size f)) p.
by rewrite /Position.zero size_nseq !Position.sub_zero //; apply.
Qed.

(** Clamping a well-formed mask never reads a flag out of the flags'
    domain: the operation is defined. *)
Lemma and_assign_defined (m : t) (c : Box.t) :
  wf m -> Box.wf c -> Box.dimension c = dimension m ->
  exists m_flags',
    Raster.patch_copy (m_flags m)
      (Box.sub_assign (Box.and_assign (m_box m) c) (Box.front (m_box m)))
    = Some m_flags'.
Proof.
case: m => [[f k] [s d]] /and3P /= [/eqP sz_k /eqP eq_s wf_d] /eqP sz_ck sz_cf.
rewrite /dimension /Box.dimension /= in sz_cf.
rewrite /Raster.patch_copy.
have [|d' ->] := @Raster.oseq_all_some _ _ (Raster.get (Raster.mk s d))
   (Box.positions (Box.sub_assign (Box.and_assign (Box.mk f k) c) f)); last by eexists.
have wf_reg : Box.wf (Box.sub_assign (Box.and_assign (Box.mk f k) c) f).
  apply: Box.wf_sub; first by apply: Box.wf_and => //; apply/eqP.
  by rewrite /Box.dimension /= Position.size_zip_with.
move=> q; rewrite Box.mem_positions // => q_in.
apply: Raster.get_some => //.
rewrite /Raster.contains /= eq_s; apply: region_in_flags q_in => //.
by rewrite sz_ck.
Qed.

(** C5. Clamping a mask [m] to a box [c] yields a mask whose bounding box is
    [m.box() & c] and in which a position is flagged exactly when it is
    flagged in [m] and lies in [c]: [(m & c)[p] == (m[p] && c.contains(p))]
    at every position [p]; the flagged positions of the result are those of
    [m] that lie in [c]. *)
Theorem and_spec (m : t) (c : Box.t) :
  wf m -> Box.wf c -> Box.dimension c = dimension m ->
  exists m',
    [/\ and_ m c = Some m',
        box m' = Box.and_assign (box m) c,
        wf m',
        forall p, exists2 b, get m p = Some b & get m' p = Some (b && Box.contains c p)
      & forall p, (p \in positions m') = (p \in positions m) && Box.contains c p].
Proof.
move=> wf_m wf_c dim_c.
have [fl' Efl] := and_assign_defined wf_m wf_c dim_c.
have /and3P [wf_b /eqP eq_s wf_d] := wf_m.
have wf_b' : Box.wf (Box.and_assign (m_box m) c) by apply: Box.wf_and.
have sz_f : seq.size (Box.front (m_box m)) = Box.dimension (Box.and_assign (m_box m) c).
  rewrite /Box.dimension /= Position.size_zip_with //.
have wf_reg : Box.wf (Box.sub_assign (Box.and_assign (m_box m) c) (Box.front (m_box m))).
  exact: Box.wf_sub.
have wf_m' : wf (mk (Box.and_assign (m_box m) c) fl').
  apply/and3P; split=> //=; last exact: Raster.size_patch_copy Efl.
  move: Efl; rewrite /Raster.patch_copy; case: (oseq _) => // d' [<-] /=.
  by rewrite Box.shape_sub.
have pointwise p :
  exists2 b, get m p = Some b
           & get (mk (Box.and_assign (m_box m) c) fl') p = Some (b && Box.contains c p).
  have := get_wf p wf_m; case Eb: (get m p) => [b|] // _; exists b => //.
  rewrite /get /= Box.contains_and //.
  case Ein: (Box.contains (m_box m) p); last first.
    by move: Eb; rewrite /get Ein /=; case=> <-.
  case Ec: (Box.contains c p); last by rewrite !andbF.
  have [sz_p _] := Box.between_size Ein.
  have sz_a : seq.size (Box.front (m_box m))
              = seq.size (Position.max (Box.front (m_box m)) (Box.front c)).
    by rewrite Position.size_zip_with.
  have idx : isSome (Raster.index
      (Box.shape (Box.sub_assign (Box.and_assign (m_box m) c) (Box.front (m_box m))))
      (Position.sub p (Position.max (Box.front (m_box m)) (Box.front c)))).
    rewrite /Box.shape /=; apply: index_in_region => //.
    by have := Box.contains_and p wf_b wf_c dim_c; rewrite Ein Ec.
  rewrite andbT /= (Raster.get_patch_copy wf_reg Efl idx) /=.
  rewrite add_sub_sub -?sz_a //.
  by move: Eb; rewrite /get Ein andbT.
exists (mk (Box.and_assign (m_box m) c) fl'); split=> //.
- by rewrite /and_ /and_assign Efl.
- move=> p; rewrite /positions !mem_filter !Box.mem_positions //=.
  have [b Eb ->] := pointwise p; rewrite Eb Box.contains_and //.
  by case: b {Eb}; case: (Box.contains c p); rewrite /= ?andbF ?andbT.
Qed.

(** A 2x2 mask with one flag cleared, and a box that overlaps its right
    column. *)
Definition example_mask : t :=
  of_flags (Box.mk [:: 0; 0]%Z [:: 1; 1]%Z) [:: true; false; true; true].

Definition example_bounds : Box.t := Box.mk [:: 1; 0]%Z [:: 3; 3]%Z.

Lemma and_spec_witness :
  exists m',
    [/\ and_ example_mask example_bounds = Some m',
        box m' = Box.and_assign (box example_mask) example_bounds,
        wf m',
        forall p, exists2 b, get example_mask p = Some b
                           & get m' p = Some (b && Box.contains example_bounds p)
      & forall p, (p \in positions m')
                  = (p \in positions example_mask) && Box.contains example_bounds p].
Proof. exact: (@and_spec example_mask example_bounds erefl erefl erefl). Defined.

(** C8. Translating a mask [m] by a vector [v] moves the front and the back
    of its bounding box by [v] and leaves the flags untouched; translating by
    [v] and then by the opposite of [v] restores the mask:
    [(m + v) - v == m]. *)
Theorem translate_spec (m : t) (v : Position) :
  wf m -> seq.size v = dimension m ->
  [/\ flags (add m v) = flags m,
      Box.front (box (add m v)) = Position.add (Box.front (box m)) v,
      Box.back (box (add m v)) = Position.add (Box.back (box m)) v,
      flags (sub (add m v) v) = flags m
    & eqb (sub (add m v) v) m].
Proof.
move=> /and3P [wf_b _ _] sz_v; split=> //.
apply/eqbP; case: m wf_b sz_v => b fl /= wf_b sz_v.
by rewrite /sub /add /sub_assign /add_assign /= Box.translate_back.
Qed.

Lemma translate_spec_witness :
  [/\ flags (add example_mask [:: 5; -7]%Z) = flags example_mask,
      Box.front (box (add example_mask [:: 5; -7]%Z))
      = Position.add (Box.front (box example_mask)) [:: 5; -7]%Z,
      Box.back (box (add example_mask [:: 5; -7]%Z))
      = Position.add (Box.back (box example_mask)) [:: 5; -7]%Z,
      flags (sub (add example_mask [:: 5; -7]%Z) [:: 5; -7]%Z) = flags example_mask
    & eqb (sub (add example_mask [:: 5; -7]%Z) [:: 5; -7]%Z) example_mask].
Proof. exact: (@translate_spec example_mask [:: 5; -7]%Z erefl erefl). Defined.

(** ** Further properties of [Mask] *)

(** Modelled from the spec: a position plus or minus a scalar
    ([Position::operator+=(Index)], [Linx/Data/Vector.h] is not in the source
    tree) adds the scalar to every coordinate. *)
Definition position_shift (p : Position) (scalar : Z) : Position :=
  [seq (x + scalar)%Z | x <- p].

(** [Mask::from_center(radius, center, flag)]. *)
Definition from_center (radius : Z) (center : Position) (flag : bool) : t :=
  make (Box.mk (position_shift center (- radius)) (position_shift center radius)) flag.

(** Every coordinate of [p] is within [radius] of the one of [center]. *)
Fixpoint within (radius : Z) (center p : Position) : bool :=
  match center, p with
  | c :: center', x :: p' => (Z.abs (x - c) <=? radius)%Z && within radius center' p'
  | [::], [::] => true
  | _, _ => false
  end.

Lemma get_nseq (T : Type) (shape q : Position) (x : T) :
  Raster.get (Raster.mk shape (nseq (Box.volume shape) x)) q
  = if Raster.index shape q is Some _ then Some x else None.
Proof.
rewrite /Raster.get /=; case E: (Raster.index shape q) => [i|] //.
by rewrite (onth_nth x) ?size_nseq ?nth_nseq ?(Raster.index_lt E).
Qed.

Lemma wf_make (b : Box.t) (flag : bool) : Box.wf b -> wf (make b flag).
Proof. by move=> wf_b; rewrite /wf /make /= wf_b eqxx /Raster.wf /= size_nseq eqxx. Qed.

(** X1. The constructor [Mask(box, flag)] establishes the invariant of the
    class; the mask it builds answers [flag] inside the box and [false]
    outside, and its [size()] is the number of positions of the box when the
    flag is set and zero otherwise. *)
Theorem make_spec (b : Box.t) (flag : bool) :
  Box.wf b ->
  [/\ wf (make b flag),
      forall p, get (make b flag) p = Some (flag && Box.contains b p)
    & size (make b flag) = if flag then Box.size b else 0].
Proof.
move=> wf_b; split; first exact: wf_make.
- move=> p; have := get_wf p (wf_make flag wf_b).
  rewrite /get /=; case: (Box.contains b p); last by rewrite andbF.
  by rewrite get_nseq andbT; case: (Raster.index _ _).
- rewrite /size /= count_nseq /Box.size.
  by case: flag; rewrite ?mul1n ?mul0n.
Qed.

Lemma make_spec_witness :
  [/\ wf (make (Box.mk [:: 0; 0]%Z [:: 1; 2]%Z) true),
      forall p, get (make (Box.mk [:: 0; 0]%Z [:: 1; 2]%Z) true) p
                = Some (true && Box.contains (Box.mk [:: 0; 0]%Z [:: 1; 2]%Z) p)
    & size (make (Box.mk [:: 0; 0]%Z [:: 1; 2]%Z) true)
      = if true then Box.size (Box.mk [:: 0; 0]%Z [:: 1; 2]%Z) else 0].
Proof. exact: (@make_spec (Box.mk [:: 0; 0]%Z [:: 1; 2]%Z) true erefl). Defined.

Lemma between_within (radius : Z) (center p : Position) :
  Box.between (position_shift center (- radius)) (position_shift center radius) p
  = within radius center p.
Proof.
rewrite /position_shift.
elim: center p => [|c center IH] [|x p] //=; rewrite IH andbA.
have -> // : (c + - radius <=? x)%Z && (x <=? c + radius)%Z = (Z.abs (x - c) <=? radius)%Z.
by zbool.
Qed.

Lemma volume_cube (radius : Z) (center : Position) :
  Box.volume (Box.shape (Box.mk (position_shift center (- radius))
                                (position_shift center radius)))
  = Z.to_nat (2 * radius + 1) ^ seq.size center.
Proof.
rewrite /Box.shape /position_shift /Position.zip_with /=.
have E c : (c + radius - (c + - radius) + 1 = 2 * radius + 1)%Z by lia.
move: (2 * radius + 1)%Z E => side E.
by elim: center => [|c center IH] //=; rewrite IH expnS E.
Qed.

(** X2. [from_center(radius, center, flag)] is the cube of half-side
    [radius] around [center]: a position answers [flag] exactly when each of
    its coordinates is within [radius] of the center's, and the mask holds
    [(2 radius + 1)^N] positions when the flag is set. *)
Theorem from_center_spec (radius : Z) (center : Position) (flag : bool) :
  [/\ wf (from_center radius center flag),
      forall p, get (from_center radius center flag) p
                = Some (flag && within radius center p)
    & size (from_center radius center flag)
      = if flag then Z.to_nat (2 * radius + 1) ^ seq.size center else 0].
Proof.
have wf_b : Box.wf (Box.mk (position_shift center (- radius))
                           (position_shift center radius)).
  by rewrite /Box.wf /= !size_map.
split; first exact: wf_make.
- move=> p; have := get_wf p (wf_make flag wf_b).
  rewrite /get /from_center /= /Box.contains /= between_within.
  case: (within radius center p); last by rewrite andbF.
  by rewrite get_nseq andbT; case: (Raster.index _ _).
- rewrite /size /from_center /= count_nseq /Box.size volume_cube.
  by case: flag; rewrite ?mul1n ?mul0n.
Qed.

Lemma size_sub (p q : Position) :
  seq.size q = seq.size p -> seq.size (Position.sub p q) = seq.size p.
Proof. exact: Position.size_zip_with. Qed.

Lemma between_add (f k p v : Position) :
  seq.size k = seq.size f -> seq.size v = seq.size f -> seq.size p = seq.size f ->
  Box.between (Position.add f v) (Position.add k v) (Position.add p v)
  = Box.between f k p.
Proof.
rewrite /Position.add /Position.zip_with.
elim: f k p v => [|x f IH] [|y k] [|z p] [|w v] //= [sz_k] [sz_v] [sz_p].
rewrite IH //.
have -> : (x + w <=? z + w)%Z = (x <=? z)%Z by zbool.
by have -> : (z + w <=? y + w)%Z = (z <=? y)%Z by zbool.
Qed.

Lemma sub_add_add (f p v : Position) :
  seq.size v = seq.size f -> seq.size p = seq.size f ->
  Position.sub (Position.add p v) (Position.add f v) = Position.sub p f.
Proof.
rewrite /Position.add /Position.sub /Position.zip_with.
elim: f p v => [|x f IH] [|z p] [|w v] //= [sz_v] [sz_p].
by rewrite IH //; congr (_ :: _); lia.
Qed.

(** X3. The flags move with the box: after a translation by [v], the mask
    answers at [p + v] what it answered at [p]. *)
Theorem get_translate (m : t) (v p : Position) :
  Box.wf (box m) -> seq.size v = dimension m -> seq.size p = dimension m ->
  get (add m v) (Position.add p v) = get m p.
Proof.
case: m => [[f k] fl]; rewrite /dimension /Box.dimension /get /add /add_assign /=.
rewrite /Box.wf /= => /eqP sz_k sz_v sz_p; rewrite /Box.contains /=.
by rewrite between_add // sub_add_add.
Qed.

Lemma get_translate_witness :
  get (add example_mask [:: 5; -7]%Z) (Position.add [:: 0; 1]%Z [:: 5; -7]%Z)
  = get example_mask [:: 0; 1]%Z.
Proof.
exact: (@get_translate example_mask [:: 5; -7]%Z [:: 0; 1]%Z erefl erefl erefl).
Defined.

Lemma flatten_iota (V m L : nat) :
  flatten [seq iota (a * V) V | a <- iota m L] = iota (m * V) (L * V).
Proof.
elim: L m => [|L IH] m //=.
by rewrite IH mulSn iotaD [V + m * V]addnC.
Qed.

(** The iteration over a box visits the offsets of its raster in order. *)
Lemma index_positions_between f k :
  seq.size k = seq.size f ->
  [seq Raster.index (Position.zip_with (fun a b => (b - a + 1)%Z) f k) (Position.sub p f)
     | p <- Box.positions_between f k]
  = [seq Some i
       | i <- iota 0 (Box.volume (Position.zip_with (fun a b => (b - a + 1)%Z) f k))].
Proof.
rewrite /Position.sub /Position.zip_with.
elim: f k => [|x f IH] [|y k] //= [sz_k].
rewrite map_flatten -map_comp.
set V := Box.volume _.
set rows := map _ _.
have -> : rows = [seq [seq Some i | i <- iota (a * V) V]
                    | a <- iota 0 (Z.to_nat (y - x + 1))].
  rewrite /rows /zrange -map_comp; apply/eq_in_map => a.
  rewrite mem_iota /= add0n => /ltP lt_a; rewrite -map_comp.
  pose g o := if o is Some j then Some (a * V + j) else None.
  pose h q := Raster.index [seq (c.2 - c.1 + 1)%Z | c <- zip f k]
                           [seq (c.1 - c.2)%Z | c <- zip q f].
  transitivity [seq (g \o h) q | q <- Box.positions_between f k].
    apply/eq_map => q /=.
    have -> : (0 <=? x + Z.of_nat a - x)%Z && (x + Z.of_nat a - x <? y - x + 1)%Z.
      by zbool.
    have -> : Z.to_nat (x + Z.of_nat a - x) = a by lia.
    by [].
  rewrite (map_comp g h) /h IH // -[a * V]addn0 iotaDl -!map_comp.
  by apply/eq_map.
by rewrite -[in RHS](mul0n V) -flatten_iota map_flatten -map_comp.
Qed.

(** X4. [size()] counts the flags set in the buffer; on a well-formed mask
    this is the number of positions of the bounding box at which
    [operator[]] answers [true]. *)
Theorem size_count (m : t) :
  wf m ->
  size m = count (fun p => get m p == Some true) (Box.positions (box m)).
Proof.
case: m => [[f k] [s d]] /and3P /= [wf_b /eqP eq_s /eqP wf_d].
rewrite /size /box /=.
rewrite -[RHS]/(count (preim (get (mk (Box.mk f k) (Raster.mk s d))) (pred1 (Some true)))
                  (Box.positions (Box.mk f k))) -count_map.
have -> : [seq get (mk (Box.mk f k) (Raster.mk s d)) p | p <- Box.positions (Box.mk f k)]
          = [seq Some b | b <- d].
  have -> : [seq get (mk (Box.mk f k) (Raster.mk s d)) p | p <- Box.positions (Box.mk f k)]
            = [seq (if o is Some i then onth d i else None)
                 | o <- [seq Raster.index s (Position.sub p f)
                           | p <- Box.positions (Box.mk f k)]].
    rewrite -map_comp; apply/eq_in_map => p; rewrite Box.mem_positions //.
    by rewrite /get /= => ->.
  have sz_k : seq.size k = seq.size f by exact/eqP.
  rewrite eq_s /Box.shape /Box.positions /= index_positions_between //.
  rewrite -map_comp -/(Box.shape (Box.mk f k)) -eq_s -wf_d.
  rewrite -[in RHS](mkseq_nth false d) /mkseq -map_comp.
  by apply/eq_in_map => i; rewrite mem_iota /= add0n => lt_i; rewrite (onth_nth false).
by rewrite count_map; apply/eq_count => b /=; case: b.
Qed.

Lemma size_count_witness :
  size example_mask
  = count (fun p => get example_mask p == Some true) (Box.positions (box example_mask)).
Proof. exact: (@size_count example_mask erefl). Defined.

(** Modelled from the spec: the negation of a position and of a box
    ([Position::operator-], [Box::operator-]; their headers are not in the
    source tree) mirrors every coordinate, so that the mirrored back becomes
    the front. *)
Definition position_opp (p : Position) : Position := [seq (- x)%Z | x <- p].

Definition box_opp (b : Box.t) : Box.t :=
  Box.mk (position_opp (Box.back b)) (position_opp (Box.front b)).

(** [operator-()]: the box is mirrored and the flags are reversed. *)
Definition opp (m : t) : t :=
  mk (box_opp (m_box m))
     (Raster.mk (Raster.shape (m_flags m)) (rev (Raster.data (m_flags m)))).

Lemma between_opp (f k p : Position) :
  Box.between (position_opp k) (position_opp f) (position_opp p) = Box.between f k p.
Proof.
rewrite /position_opp.
elim: f k p => [|x f IH] [|y k] [|z p] //=; rewrite IH.
have -> : (- y <=? - z)%Z = (z <=? y)%Z by zbool.
have -> : (- z <=? - x)%Z = (x <=? z)%Z by zbool.
by rewrite andbCA.
Qed.

Lemma shape_opp (f k : Position) :
  seq.size k = seq.size f ->
  Box.shape (box_opp (Box.mk f k)) = Box.shape (Box.mk f k).
Proof.
rewrite /Box.shape /box_opp /position_opp /Position.zip_with /=.
elim: f k => [|x f IH] [|y k] //= [sz_k].
by rewrite IH //; congr (_ :: _); lia.
Qed.

(** The offset of a position seen from the mirrored corner is the mirror of
    its offset. *)
Lemma index_mirror (f k p : Position) (i : nat) :
  seq.size k = seq.size f -> seq.size p = seq.size f ->
  Raster.index (Position.zip_with (fun a b => (b - a + 1)%Z) f k) (Position.sub p f)
  = Some i ->
  Raster.index (Position.zip_with (fun a b => (b - a + 1)%Z) f k)
    (Position.sub (position_opp p) (position_opp k))
  = Some (Box.volume (Position.zip_with (fun a b => (b - a + 1)%Z) f k) - i.+1).
Proof.
rewrite /Position.sub /position_opp /Position.zip_with.
elim: f k p i => [|x f IH] [|y k] [|z p] i //=.
move=> [sz_k] [sz_p].
case: ifP => // /andP [/Z.leb_le ge0 /Z.ltb_lt lt_l].
case E: (Raster.index _ _) => [j|] // [<-].
have lt_j := Raster.index_lt E; rewrite (IH _ _ _ sz_k sz_p E).
have -> : (0 <=? - z - - y)%Z && (- z - - y <? y - x + 1)%Z by zbool.
congr Some; move: lt_j; set V := Box.volume _ => /ltP lt_j.
have -> : Z.to_nat (- z - - y) = Z.to_nat (y - x + 1) - (Z.to_nat (z - x)).+1.
  by apply/esym; rewrite -minusE; lia.
have /ltP lt_x : Z.to_nat (z - x) < Z.to_nat (y - x + 1) by apply/ltP; lia.
move: (Z.to_nat (z - x)) (Z.to_nat (y - x + 1)) lt_x => a L lt_a.
rewrite -!minusE -!multE -!plusE.
have [c ->] : exists c, L = (a + c.+1)%coq_nat by exists (L - a.+1)%coq_nat; lia.
have [e ->] : exists e, V = (j + e.+1)%coq_nat by exists (V - j.+1)%coq_nat; lia.
nia.
Qed.

(** X5. [operator-()] mirrors the mask: it keeps the invariant of the
    class, the mirrored mask answers at [-p] what the mask answered at [p]
    (reversing the flags matches the iteration of the mirrored box), and
    mirroring twice gives the mask back. *)
Theorem opp_spec (m : t) :
  wf m ->
  [/\ wf (opp m),
      forall p, get (opp m) (position_opp p) = get m p
    & opp (opp m) = m].
Proof.
case: m => [[f k] [s d]] /and3P /= [wf_b /eqP eq_s /eqP wf_d].
have sz_k : seq.size k = seq.size f by exact/eqP.
split.
- apply/and3P; split; rewrite /opp /=.
  + by rewrite /Box.wf /= !size_map sz_k.
  + by rewrite shape_opp // eq_s.
  + by rewrite /Raster.wf /= size_rev wf_d.
- move=> p; rewrite /get /opp /= /Box.contains /= between_opp.
  case E: (Box.between f k p) => //.
  have := @index_in_region f k (Position.zero (seq.size f)) p.
  rewrite /Position.zero size_nseq !Position.sub_zero // => /(_ erefl E).
  rewrite /Raster.get /= eq_s /Box.shape /=.
  case Ei: (Raster.index _ _) => [i|] // _.
  have [sz_p _] := Box.between_size E.
  rewrite (index_mirror sz_k sz_p Ei).
  have lt_i := Raster.index_lt Ei.
  move: lt_i; rewrite -/(Box.shape (Box.mk f k)) -eq_s -wf_d => lt_i.
  have lt_r : seq.size d - i.+1 < seq.size d by rewrite subnSK // leq_subr.
  rewrite (onth_nth false) ?size_rev // (onth_nth false) // nth_rev //.
  by rewrite subnSK // subKn // ltnW.
- rewrite /opp /box_opp /position_opp /= revK -!map_comp.
  have E : (Z.opp \o Z.opp) =1 id by move=> x /=; lia.
  by rewrite !(eq_map E) !map_id.
Qed.

Lemma opp_spec_witness :
  [/\ wf (opp example_mask),
      forall p, get (opp example_mask) (position_opp p) = get example_mask p
    & opp (opp example_mask) = example_mask].
Proof. exact: (@opp_spec example_mask erefl). Defined.

End Mask.

(** * Windows and patches *)

Module Window.

(** The structuring element of a filter ([TWindow]): a box or a mask. *)
Inductive t := OfBox (b : Box.t) | OfMask (m : Mask.t).

Definition wf (w : t) : bool :=
  match w with OfBox b => Box.wf b | OfMask m => Mask.wf m end.

Definition dimension (w : t) : nat :=
  match w with OfBox b => Box.dimension b | OfMask m => Mask.dimension m end.

(** [operator+=(vector)] and [operator-=(vector)] of the region. *)
Definition add_assign (w : t) (v : Position) : t :=
  match w with
  | OfBox b => OfBox (Box.add_assign b v)
  | OfMask m => OfMask (Mask.add_assign m v)
  end.

Definition sub_assign (w : t) (v : Position) : t :=
  match w with
  | OfBox b => OfBox (Box.sub_assign b v)
  | OfMask m => OfMask (Mask.sub_assign m v)
  end.

(** The positions the region iterates over. *)
Definition positions (w : t) : seq Position :=
  match w with OfBox b => Box.positions b | OfMask m => Mask.positions m end.

Lemma window_back (w : t) (v : Position) :
  wf w -> size v = dimension w -> sub_assign (add_assign w v) v = w.
Proof.
case: w => [b|[b fl]] /=; first by move=> wf_b sz_v; rewrite Box.translate_back.
move=> /and3P [wf_b _ _] sz_v.
by rewrite /Mask.sub_assign /Mask.add_assign /= Box.translate_back.
Qed.

End Window.

Module Patch.

(** Modelled from the spec: [Patch] ([Linx/Data/Patch.h] is not in the
    source tree).  A patch is a view: a reference to the raster it reads and
    a region that can be translated; [>>=] translates the region by a vector
    and [<<=] by its opposite.  Iterating a patch reads the raster at the
    positions of the region; a read outside the raster is undefined. *)
Record t (T : Type) := mk { parent : Raster.t T; region : Window.t }.

(** Modelled from the spec: [patch >>= vector] is [m_region += vector]. *)
Definition shift_right (T : Type) (patch : t T) (vector : Position) : t T :=
  mk (parent patch) (Window.add_assign (region patch) vector).

(** Modelled from the spec: [patch <<= vector] is [m_region -= vector]. *)
Definition shift_left (T : Type) (patch : t T) (vector : Position) : t T :=
  mk (parent patch) (Window.sub_assign (region patch) vector).

(** Modelled from the spec: the values [patch.begin() .. patch.end()] goes
    through, the raster read at each position of the region. *)
Definition values (T : Type) (patch : t T) : option (seq T) :=
  oseq [seq Raster.get (parent patch) p | p <- Window.positions (region patch)].

Lemma shift_back (T : Type) (patch : t T) (v : Position) :
  Window.wf (region patch) -> size v = Window.dimension (region patch) ->
  shift_left (shift_right patch v) v = patch.
Proof.
by case: patch => r w /= wf_w sz_v; rewrite /shift_left /= Window.window_back.
Qed.

End Patch.

(** * Filtering kernels ([Linx/Transforms/Filters.h]) *)

Module Filters.

Section Extrema.

Variable T : Type.
Variable lt : T -> T -> bool.

(** [*std::min_element(first, last)]: the first smallest element; reading
    the result on an empty range is undefined. *)
Definition min_element (s : seq T) : option T :=
  if s is x :: s' then Some (foldl (fun m y => if lt y m then y else m) x s') else None.

(** [*std::max_element(first, last)]: the first largest element. *)
Definition max_element (s : seq T) : option T :=
  if s is x :: s' then Some (foldl (fun m y => if lt m y then y else m) x s') else None.

End Extrema.

(** [operator<] on [bool]: [false < true]. *)
Definition bool_lt (a b : bool) : bool := ~~ a && b.

(** [MinimumFilter::operator()(neighbors)] and
    [MaximumFilter::operator()(neighbors)] on Booleans. *)
Definition MinimumFilter (neighbors : seq bool) : option bool :=
  min_element bool_lt neighbors.

Definition MaximumFilter (neighbors : seq bool) : option bool :=
  max_element bool_lt neighbors.

(** [BinaryErosion::operator()(neighbors)]: [std::all_of]. *)
Definition BinaryErosion (neighbors : seq bool) : bool := all id neighbors.

(** [BinaryDilation::operator()(neighbors)]: [std::any_of]. *)
Definition BinaryDilation (neighbors : seq bool) : bool := has id neighbors.

(** [BinaryErosion::operator()(in, patch, pos)]: the result and the patch,
    which the call receives by reference and may translate. *)
Definition BinaryErosion_at (in_ : Raster.t bool) (patch : Patch.t bool)
  (pos : Position) : option (bool * Patch.t bool) :=
  match Raster.get in_ pos with
  | None => None
  | Some c =>
      if ~~ c then Some (false, patch)
      else
        let patch := Patch.shift_right patch pos in
        match Patch.values patch with
        | None => None
        | Some neighbors =>
            let out := BinaryErosion neighbors in
            let patch := Patch.shift_left patch pos in
            Some (out, patch)
        end
  end.

(** [BinaryDilation::operator()(in, patch, pos)]. *)
Definition BinaryDilation_at (in_ : Raster.t bool) (patch : Patch.t bool)
  (pos : Position) : option (bool * Patch.t bool) :=
  match Raster.get in_ pos with
  | None => None
  | Some c =>
      if c then Some (true, patch)
      else
        let patch := Patch.shift_right patch pos in
        match Patch.values patch with
        | None => None
        | Some neighbors =>
            let out := BinaryDilation neighbors in
            let patch := Patch.shift_left patch pos in
            Some (out, patch)
        end
  end.

(** Modelled from the spec: the output of a filter at a position
    ([SimpleFilter.h] is not in the source tree) is the kernel applied to the
    values of the input over the window translated to the position. *)
Definition neighbors_at (in_ : Raster.t bool) (window : Window.t) (pos : Position)
  : option (seq bool) :=
  Patch.values (Patch.shift_right (Patch.mk in_ window) pos).

Definition MinimumFilter_at (in_ : Raster.t bool) (window : Window.t) (pos : Position)
  : option bool :=
  if neighbors_at in_ window pos is Some neighbors then MinimumFilter neighbors else None.

Definition MaximumFilter_at (in_ : Raster.t bool) (window : Window.t) (pos : Position)
  : option bool :=
  if neighbors_at in_ window pos is Some neighbors then MaximumFilter neighbors else None.

(** A two-pixel line and a window made of the right neighbour only. *)
Definition line_ft : Raster.t bool := Raster.mk [:: 2%Z] [:: false; true].
Definition line_tf : Raster.t bool := Raster.mk [:: 2%Z] [:: true; false].
Definition right_neighbour : Window.t := Window.OfBox (Box.mk [:: 1%Z] [:: 1%Z]).

Lemma foldl_min (x : bool) (s : seq bool) :
  foldl (fun m y => if bool_lt y m then y else m) x s = x && all id s.
Proof.
elim: s x => [|y s IH] x /=; first by rewrite andbT.
by rewrite IH; case: x; case: y.
Qed.

Lemma foldl_max (x : bool) (s : seq bool) :
  foldl (fun m y => if bool_lt m y then y else m) x s = x || has id s.
Proof.
elim: s x => [|y s IH] x /=; first by rewrite orbF.
by rewrite IH; case: x; case: y.
Qed.

(** On a non-empty neighbourhood the minimum is the conjunction and the
    maximum the disjunction. *)
Lemma MinimumFilter_all (s : seq bool) : s != [::] -> MinimumFilter s = Some (all id s).
Proof. by case: s => [|x s] // _; rewrite /MinimumFilter /= foldl_min. Qed.

Lemma MaximumFilter_has (s : seq bool) : s != [::] -> MaximumFilter s = Some (has id s).
Proof. by case: s => [|x s] // _; rewrite /MaximumFilter /= foldl_max. Qed.

(** What the three-argument operators compute: the patch handed back is the
    patch received, and the neighbourhood is read through the patch
    translated to the position. *)
Lemma BinaryErosion_at_eq (in_ : Raster.t bool) (patch : Patch.t bool) (pos : Position) :
  Window.wf (Patch.region patch) -> size pos = Window.dimension (Patch.region patch) ->
  BinaryErosion_at in_ patch pos =
  match Raster.get in_ pos with
  | None => None
  | Some false => Some (false, patch)
  | Some true =>
      if Patch.values (Patch.shift_right patch pos) is Some neighbors
      then Some (BinaryErosion neighbors, patch) else None
  end.
Proof.
move=> wf_w sz_pos; rewrite /BinaryErosion_at.
case: (Raster.get in_ pos) => [[]|] //=.
by case: (Patch.values _) => // nb; rewrite Patch.shift_back.
Qed.

Lemma BinaryDilation_at_eq (in_ : Raster.t bool) (patch : Patch.t bool) (pos : Position) :
  Window.wf (Patch.region patch) -> size pos = Window.dimension (Patch.region patch) ->
  BinaryDilation_at in_ patch pos =
  match Raster.get in_ pos with
  | None => None
  | Some true => Some (true, patch)
  | Some false =>
      if Patch.values (Patch.shift_right patch pos) is Some neighbors
      then Some (BinaryDilation neighbors, patch) else None
  end.
Proof.
move=> wf_w sz_pos; rewrite /BinaryDilation_at.
case: (Raster.get in_ pos) => [[]|] //=.
by case: (Patch.values _) => // nb; rewrite Patch.shift_back.
Qed.

(** When the window translated to the position holds the position itself
    (the structuring element contains its origin) and the neighbourhood can
    be read, the short-circuit agrees with the extremum filters. *)
Lemma centre_in_neighbors (in_ : Raster.t bool) (window : Window.t) (pos : Position)
  (neighbors : seq bool) :
  neighbors_at in_ window pos = Some neighbors ->
  pos \in Window.positions (Window.add_assign window pos) ->
  exists2 c, Raster.get in_ pos = Some c & c \in neighbors.
Proof.
rewrite /neighbors_at /Patch.values /= => /Raster.oseq_some E pos_in.
have : Raster.get in_ pos \in [seq Some x | x <- neighbors].
  by rewrite -E; apply/mapP; exists pos.
by case/mapP => c c_in ->; exists c.
Qed.

Lemma BinaryErosion_at_centred (in_ : Raster.t bool) (window : Window.t) (pos : Position)
  (neighbors : seq bool) :
  Window.wf window -> size pos = Window.dimension window ->
  neighbors_at in_ window pos = Some neighbors ->
  pos \in Window.positions (Window.add_assign window pos) ->
  omap fst (BinaryErosion_at in_ (Patch.mk in_ window) pos) = MinimumFilter_at in_ window pos.
Proof.
move=> wf_w sz_pos Enb pos_in.
have [c Ec c_in] := centre_in_neighbors Enb pos_in.
rewrite BinaryErosion_at_eq // /MinimumFilter_at Ec Enb.
have nb_n0 : neighbors != [::] by case: neighbors c_in {Enb}.
move: Enb; rewrite /neighbors_at => Enb.
rewrite Enb MinimumFilter_all //; case: c Ec c_in => //= _ f_in.
by congr Some; apply/esym/negbTE/allPn; exists false.
Qed.

Lemma BinaryDilation_at_centred (in_ : Raster.t bool) (window : Window.t) (pos : Position)
  (neighbors : seq bool) :
  Window.wf window -> size pos = Window.dimension window ->
  neighbors_at in_ window pos = Some neighbors ->
  pos \in Window.positions (Window.add_assign window pos) ->
  omap fst (BinaryDilation_at in_ (Patch.mk in_ window) pos) = MaximumFilter_at in_ window pos.
Proof.
move=> wf_w sz_pos Enb pos_in.
have [c Ec c_in] := centre_in_neighbors Enb pos_in.
rewrite BinaryDilation_at_eq // /MaximumFilter_at Ec Enb.
have nb_n0 : neighbors != [::] by case: neighbors c_in {Enb}.
move: Enb; rewrite /neighbors_at => Enb.
rewrite Enb MaximumFilter_has //; case: c Ec c_in => //= _ t_in.
by congr Some; apply/esym/hasP; exists true.
Qed.

(** C1 (the code departs from the claim).  On the line [false; true] with
    the window made of the right neighbour only, at position 0, the minimum
    filter sees the single neighbour [true] and answers [true], while
    [BinaryErosion] short-circuits on the pixel itself and answers [false];
    dually on [true; false] the maximum filter answers [false] and
    [BinaryDilation] answers [true]. *)
Theorem short_circuit_differs :
  [/\ omap fst (BinaryErosion_at line_ft (Patch.mk line_ft right_neighbour) [:: 0%Z])
      = Some false,
      MinimumFilter_at line_ft right_neighbour [:: 0%Z] = Some true,
      omap fst (BinaryDilation_at line_tf (Patch.mk line_tf right_neighbour) [:: 0%Z])
      = Some true
    & MaximumFilter_at line_tf right_neighbour [:: 0%Z] = Some false].
Proof. by split; vm_compute. Qed.

(** C10. Every evaluation of the three-argument [operator()] of
    [BinaryErosion] and of [BinaryDilation] hands the patch back in the
    translation state it received it in: on the short-circuit branch the
    patch is not touched, on the full-evaluation branch it is translated by
    the position, read, and translated back by the same position. *)
Theorem patch_restored (in_ : Raster.t bool) (patch : Patch.t bool) (pos : Position) :
  Window.wf (Patch.region patch) -> size pos = Window.dimension (Patch.region patch) ->
  [/\ Patch.shift_left (Patch.shift_right patch pos) pos = patch,
      BinaryErosion_at in_ patch pos =
      match Raster.get in_ pos with
      | None => None
      | Some false => Some (false, patch)
      | Some true =>
          if Patch.values (Patch.shift_right patch pos) is Some neighbors
          then Some (BinaryErosion neighbors, patch) else None
      end
    & BinaryDilation_at in_ patch pos =
      match Raster.get in_ pos with
      | None => None
      | Some true => Some (true, patch)
      | Some false =>
          if Patch.values (Patch.shift_right patch pos) is Some neighbors
          then Some (BinaryDilation neighbors, patch) else None
      end].
Proof.
move=> wf_w sz_pos; split; first exact: Patch.shift_back.
- exact: BinaryErosion_at_eq.
- exact: BinaryDilation_at_eq.
Qed.

(** A 3x3 image and a 3x3 window around the origin, evaluated at the centre
    and at a corner pixel. *)
Definition image3 : Raster.t bool :=
  Raster.mk [:: 3; 3]%Z [:: true; true; false; true; true; true; true; true; true].

Definition square3 : Window.t := Window.OfBox (Box.mk [:: -1; -1]%Z [:: 1; 1]%Z).

Lemma patch_restored_witness :
  [/\ Patch.shift_left (Patch.shift_right (Patch.mk image3 square3) [:: 1; 1]%Z) [:: 1; 1]%Z
      = Patch.mk image3 square3,
      BinaryErosion_at image3 (Patch.mk image3 square3) [:: 1; 1]%Z =
      match Raster.get image3 [:: 1; 1]%Z with
      | None => None
      | Some false => Some (false, Patch.mk image3 square3)
      | Some true =>
          if Patch.values (Patch.shift_right (Patch.mk image3 square3) [:: 1; 1]%Z)
          is Some neighbors
          then Some (BinaryErosion neighbors, Patch.mk image3 square3) else None
      end
    & BinaryDilation_at image3 (Patch.mk image3 square3) [:: 1; 1]%Z =
      match Raster.get image3 [:: 1; 1]%Z with
      | None => None
      | Some true => Some (true, Patch.mk image3 square3)
      | Some false =>
          if Patch.values (Patch.shift_right (Patch.mk image3 square3) [:: 1; 1]%Z)
          is Some neighbors
          then Some (BinaryDilation neighbors, Patch.mk image3 square3) else None
      end].
Proof.
exact: (@patch_restored image3 (Patch.mk image3 square3) [:: 1; 1]%Z erefl erefl).
Defined.

Section LinearKernels.

(** The value type of a kernel, with the operations [std::inner_product]
    uses; [is_complex<T>()] and [std::conj] decide what [init_impl] does. *)
Variable T : Type.
Variable zero : T.
Variables add mul : T -> T -> T.
Variable is_complex : bool.
Variable conj : T -> T.

(** A range of input iterators: its length and the element read at each
    offset from its beginning. *)
Record range := Range { distance : nat; deref : nat -> option T }.

(** [v.begin(), v.end()]. *)
Definition forward (v : seq T) : range := Range (size v) (onth v).

(** [v.rbegin(), v.rend()]: the reverse iterator at offset [i] reads the
    element [i + 1] before the end. *)
Definition backward (v : seq T) : range :=
  Range (size v) (fun i => if i < size v then onth v (size v - i.+1) else None).

(** [std::inner_product(first1, last1, first2, init)]:
    [init = init + *first1 * *first2] along the first range. *)
Fixpoint inner_product_from (n i : nat) (first1 first2 : nat -> option T) (init : T)
  : option T :=
  match n with
  | 0 => Some init
  | n'.+1 =>
      match first1 i, first2 i with
      | Some a, Some b => inner_product_from n' i.+1 first1 first2 (add init (mul a b))
      | _, _ => None
      end
  end.

Definition inner_product (r1 : range) (first2 : nat -> option T) (init : T) : option T :=
  inner_product_from (distance r1) 0 (deref r1) first2 init.

(** [Correlation::init_impl()], run when the kernel is built: complex
    weights are conjugated. *)
Definition Correlation_init (values : seq T) : seq T :=
  if is_complex then [seq conj e | e <- values] else values.

(** [Convolution::init_impl()] does nothing. *)
Definition Convolution_init (values : seq T) : seq T := values.

(** [Correlation(values)(neighbors)]. *)
Definition Correlation (values neighbors : seq T) : option T :=
  let m_values := Correlation_init values in
  inner_product (forward m_values) (onth neighbors) zero.

(** [Convolution(values)(neighbors)]. *)
Definition Convolution (values neighbors : seq T) : option T :=
  let m_values := Convolution_init values in
  inner_product (backward m_values) (onth neighbors) zero.

Lemma inner_product_from_ext n i f f' g init :
  (forall j, i <= j < i + n -> f j = f' j) ->
  inner_product_from n i f g init = inner_product_from n i f' g init.
Proof.
elim: n i init => [|n IH] i init //= Hf.
rewrite Hf ?leqnn ?addnS ?ltnS ?leq_addr //.
case: (f' i) => // a; case: (g i) => // b; apply: IH => j /andP [lt_i le_j].
by apply: Hf; rewrite (ltnW lt_i) addnS -addSn.
Qed.

Lemma inner_product_from_some n i (w v : seq T) init :
  i + n <= size w -> i + n <= size v ->
  exists y, inner_product_from n i (onth w) (onth v) init = Some y.
Proof.
elim: n i init => [|n IH] i init /=; first by exists init.
rewrite addnS => lt_w lt_v.
have lt_iw : i < size w by apply: leq_ltn_trans lt_w; rewrite leq_addr.
have lt_iv : i < size v by apply: leq_ltn_trans lt_v; rewrite leq_addr.
have x0 : T by case: (w) lt_iw.
by rewrite (onth_nth x0) // (onth_nth x0) //; apply: IH; rewrite addSn.
Qed.

(** C6. For real-valued (not complex) weights [w] and neighbour values [v]
    of the same length, the convolution kernel built from [w] and the
    correlation kernel built from [w] reversed compute the same value on
    [v]: the inner product of [w] read backwards with [v]. *)
Theorem convolution_correlation (w v : seq T) :
  is_complex = false -> size v = size w ->
  exists2 y, Convolution w v = Some y & Correlation (rev w) v = Some y.
Proof.
move=> real eq_sz.
have eq_k : Convolution w v = Correlation (rev w) v.
  rewrite /Convolution /Correlation /Correlation_init real /Convolution_init.
  rewrite /inner_product /= size_rev; apply: inner_product_from_ext => j.
  rewrite add0n => /andP [_ lt_j]; rewrite lt_j.
  have x0 : T by case: (w) lt_j.
  have lt_r : size w - j.+1 < size w.
    by case: (size w) lt_j => // m _; rewrite subSS ltnS leq_subr.
  by rewrite (onth_nth x0) // [RHS](onth_nth x0) ?size_rev // nth_rev.
have [y Ey] : exists y, Correlation (rev w) v = Some y.
  rewrite /Correlation /Correlation_init real /inner_product /=.
  by apply: inner_product_from_some; rewrite add0n ?size_rev ?eq_sz.
by exists y; rewrite ?eq_k.
Qed.

End LinearKernels.

Lemma convolution_correlation_witness :
  exists2 y, Convolution 0%Z Z.add Z.mul [:: 1; 2; 3]%Z [:: 4; 5; 6]%Z = Some y
           & Correlation 0%Z Z.add Z.mul false id (rev [:: 1; 2; 3]%Z) [:: 4; 5; 6]%Z
             = Some y.
Proof.
exact: (@convolution_correlation Z 0%Z Z.add Z.mul false id [:: 1; 2; 3]%Z [:: 4; 5; 6]%Z
          erefl erefl).
Defined.

Import Order.Theory GRing.Theory Num.Theory.

Section Median.

(** The value type: ordered, with the arithmetic of the average. *)
Variable R : realFieldType.

(** [std::nth_element(b, b + n, e)] on a buffer, as the function from the
    buffer before the call to the buffer after it. *)
Variable nth_element : seq R -> nat -> seq R.

(** What the standard promises of [std::nth_element]: the buffer is
    permuted; with [nth == last] nothing happens; otherwise the element at
    [nth] is the one a full sort would put there, no element before it is
    greater and no element after it is smaller. *)
Definition nth_element_contract : Prop :=
  forall (v : seq R) (n : nat),
    [/\ perm_eq (nth_element v n) v,
        n = size v -> nth_element v n = v
      & n < size v -> forall i, i < size v ->
          (i <= n -> (nth 0 (nth_element v n) i <= nth 0 (nth_element v n) n)%R) /\
          (n <= i -> (nth 0 (nth_element v n) n <= nth 0 (nth_element v n) i)%R)].

(** [MedianFilter::operator()(neighbors)]. *)
Definition MedianFilter (neighbors : seq R) : option R :=
  let v := neighbors in
  let size := size v in
  let n := size %/ 2 in
  let v := nth_element v n in
  if size %% 2 == 1 then onth v n
  else
    let v := nth_element v n.+1 in
    match onth v n, onth v n.+1 with
    | Some a, Some b => Some ((a + b) * 2%:R^-1)%R
    | _, _ => None
    end.

(** The order statistics of a sequence. *)
Definition order_statistic (v : seq R) (k : nat) : R := nth 0%R (sort <=%O v) k.

(** The element [std::nth_element] leaves at [nth] is the order statistic of
    that rank. *)
Lemma nth_element_statistic (v : seq R) (n : nat) :
  nth_element_contract -> n < size v ->
  nth 0%R (nth_element v n) n = order_statistic v n.
Proof.
move=> contract lt_n; have [perm_v _ /(_ lt_n) Hn] := contract v n.
set v1 := nth_element v n in perm_v Hn *; set x := nth 0%R v1 n.
have sz_v1 : size v1 = size v by exact: perm_size.
apply/esym/nth_count_eq; first exact: sort_sorted le_total _.
have perm_s : perm_eq (sort <=%O v) v1 by rewrite perm_sort perm_sym.
rewrite !(permP perm_s).
have -> : count (< x)%O v1 = count (< x)%O (take n v1) + count (< x)%O (drop n v1).
  by rewrite -count_cat cat_take_drop.
have -> : count (<= x)%O v1
          = count (<= x)%O (take n.+1 v1) + count (<= x)%O (drop n.+1 v1).
  by rewrite -count_cat cat_take_drop.
have -> : count (< x)%O (drop n v1) = 0.
  rewrite -(@eq_in_count _ pred0) ?count_pred0 // => y /(nthP 0%R) [k].
  rewrite size_drop nth_drop => lt_k <- /=.
  have lt_nk : n + k < size v by rewrite sz_v1 in lt_k; rewrite -ltn_subRL.
  have [_ le_x] := Hn _ lt_nk.
  by apply: esym; apply: le_gtF; apply: le_x; rewrite leq_addr.
rewrite addn0; apply/andP; split.
  by apply: leq_trans (count_size _ _) _; rewrite size_take_min geq_minl.
apply: leq_trans (leq_addr _ _).
have : all (<= x)%O (take n.+1 v1).
  apply/(all_nthP 0%R) => k; rewrite size_take_min => lt_k.
  have lt_kn : k < n.+1 by apply: leq_trans lt_k (geq_minl _ _).
  rewrite nth_take //; have [le_x _] := Hn k (leq_trans lt_kn lt_n).
  exact: le_x.
rewrite all_count => /eqP ->.
by rewrite size_take_min sz_v1; move/minn_idPl: lt_n => ->.
Qed.

(** X6. On an odd number of neighbours the filter returns the middle
    order statistic (the median), whatever [std::nth_element] does within its
    contract. *)
Lemma MedianFilter_odd (v : seq R) :
  nth_element_contract -> odd (size v) ->
  MedianFilter v = Some (order_statistic v (size v %/ 2)).
Proof.
move=> contract odd_v; rewrite /MedianFilter modn2 odd_v /=.
have lt_n : size v %/ 2 < size v by rewrite ltn_Pdiv //; case: (size v) odd_v.
have [/perm_size sz _ _] := contract v (size v %/ 2).
by rewrite (onth_nth 0%R) ?sz // nth_element_statistic.
Qed.

(** X7. On an even number of neighbours, four or more, the filter is
    defined and averages the order statistic of rank [size / 2 + 1] with an
    element of the buffer that is not greater: the upper of the two middle
    order statistics (rank [size / 2]) is what [std::nth_element] is asked
    for first, and the second call selects the rank above it. *)
Theorem MedianFilter_even (v : seq R) :
  nth_element_contract -> ~~ odd (size v) -> 2 < size v ->
  exists a,
    [/\ a \in v, (a <= order_statistic v (size v %/ 2).+1)%R
      & MedianFilter v = Some ((a + order_statistic v (size v %/ 2).+1) * 2%:R^-1)%R].
Proof.
move=> contract even_v gt2; rewrite /MedianFilter modn2 (negbTE even_v) /=.
set n := size v %/ 2.
have sz_v : size v = n.*2.
  by rewrite /n divn2 -[LHS]odd_double_half (negbTE even_v).
have lt_n : n.+1 < size v.
  rewrite sz_v -addnn -addn1 ltn_add2l.
  by move: gt2; rewrite sz_v; case: (n) => [|[|m]].
have [perm1 _ _] := contract v n.
set v1 := nth_element v n in perm1 *.
have sz1 : size v1 = size v by exact: perm_size.
have [perm2 _ Hn] := contract v1 n.+1.
set v2 := nth_element v1 n.+1 in perm2 Hn *.
have sz2 : size v2 = size v by rewrite (perm_size perm2).
have lt_n1 : n.+1 < size v1 by rewrite sz1.
have E : nth 0%R v2 n.+1 = order_statistic v n.+1.
  rewrite nth_element_statistic // /order_statistic.
  by have /(perm_sortP le_total le_trans le_anti) -> := perm1.
rewrite (onth_nth 0%R) ?sz2 ?(ltnW lt_n) // (onth_nth 0%R) ?sz2 // E.
exists (nth 0%R v2 n); split=> //.
- by rewrite -(perm_mem perm1) -(perm_mem perm2) mem_nth // sz2 ltnW.
- by rewrite -E; have [le_n _] := Hn lt_n1 n (ltnW lt_n1); apply: le_n.
Qed.

(** C7 (the code departs from the claim).  On two neighbours the filter
    selects the ranks [size / 2 = 1] and [size / 2 + 1 = 2]: the second read
    is one past the end of the buffer, and no value is defined, whatever
    [std::nth_element] does within its contract.  (The average of the two
    order statistics of ranks 0 and 1 is what the claim asks for.) *)
Theorem MedianFilter_pair_undefined (v : seq R) :
  nth_element_contract -> size v = 2 -> MedianFilter v = None.
Proof.
move=> contract sz_v; rewrite /MedianFilter sz_v /=.
have [/perm_size sz1 _ _] := contract v 1.
have [/perm_size sz2 _ _] := contract (nth_element v 1) 2.
rewrite (@onth_size _ _ 2) ?sz2 ?sz1 ?sz_v //.
by case: (onth _ 1).
Qed.

End Median.

(** An implementation of [std::nth_element] within the contract: sort the
    whole buffer. *)
Definition sort_nth_element (R : realFieldType) (v : seq R) (n : nat) : seq R :=
  if n < size v then sort <=%O v else v.

Lemma sort_nth_element_contract (R : realFieldType) :
  nth_element_contract (@sort_nth_element R).
Proof.
move=> v n; rewrite /sort_nth_element; split.
- by case: ifP => // _; rewrite perm_sort.
- by move=> ->; rewrite ltnn.
move=> lt_n i lt_i; rewrite lt_n.
have srt : sorted <=%O (sort <=%O v) by exact: sort_sorted le_total _.
by split=> le_in; apply: (le_sorted_leq_nth 0%R srt); rewrite ?inE ?size_sort.
Qed.

Lemma MedianFilter_pair_undefined_witness :
  MedianFilter (@sort_nth_element rat) [:: 1%:R; 2%:R]%R = None.
Proof.
exact: (@MedianFilter_pair_undefined rat (@sort_nth_element rat) [:: 1%:R; 2%:R]%R
          (@sort_nth_element_contract rat) erefl).
Defined.

Lemma MedianFilter_odd_witness :
  MedianFilter (@sort_nth_element rat) [:: 3%:R; 1%:R; 2%:R]%R
  = Some (order_statistic [:: 3%:R; 1%:R; 2%:R]%R (3 %/ 2)).
Proof.
exact: (@MedianFilter_odd rat (@sort_nth_element rat) [:: 3%:R; 1%:R; 2%:R]%R
          (@sort_nth_element_contract rat) erefl).
Defined.

Lemma MedianFilter_even_witness :
  exists a : rat,
    [/\ a \in [:: 4%:R; 1%:R; 3%:R; 2%:R]%R,
        (a <= order_statistic [:: 4%:R; 1%:R; 3%:R; 2%:R]%R (4 %/ 2).+1)%R
      & MedianFilter (@sort_nth_element rat) [:: 4%:R; 1%:R; 3%:R; 2%:R]%R
        = Some ((a + order_statistic [:: 4%:R; 1%:R; 3%:R; 2%:R]%R (4 %/ 2).+1)
                * 2%:R^-1)%R].
Proof.
exact: (@MedianFilter_even rat (@sort_nth_element rat) [:: 4%:R; 1%:R; 3%:R; 2%:R]%R
          (@sort_nth_element_contract rat) erefl erefl).
Defined.

(** On four neighbours, with the whole buffer sorted, the filter averages
    the order statistics of ranks 2 and 3, not the two middle ones (ranks 1
    and 2). *)
Lemma MedianFilter_four :
  MedianFilter (@sort_nth_element rat) [:: 1%:R; 2%:R; 3%:R; 4%:R]%R
  = Some ((3%:R + 4%:R) * 2%:R^-1)%R
  /\ ((3%:R + 4%:R) * 2%:R^-1 != (2%:R + 3%:R) * 2%:R^-1 :> rat)%R.
Proof. by split; vm_compute. Qed.

(** ** Morphology and extrema *)

(** X8. On Booleans, the erosion kernel is the minimum filter and the
    dilation kernel is the maximum filter exactly on non-empty
    neighbourhoods; on an empty one the extremum filters dereference the end
    iterator while [std::all_of] and [std::any_of] answer. *)
Theorem morphology_extrema (neighbors : seq bool) :
  (MinimumFilter neighbors == Some (BinaryErosion neighbors)) = (neighbors != [::]) /\
  (MaximumFilter neighbors == Some (BinaryDilation neighbors)) = (neighbors != [::]).
Proof.
case: neighbors => [|x s] //; split.
- by rewrite MinimumFilter_all // eqxx.
- by rewrite MaximumFilter_has // eqxx.
Qed.

(** X9. When the window translated to the position holds the position
    itself (the structuring element contains its origin) and the
    neighbourhood can be read, the short-circuits of the three-argument
    operators are sound: erosion and dilation agree with the minimum and the
    maximum filters. *)
Theorem short_circuit_centred (in_ : Raster.t bool) (window : Window.t) (pos : Position)
  (neighbors : seq bool) :
  Window.wf window -> size pos = Window.dimension window ->
  neighbors_at in_ window pos = Some neighbors ->
  pos \in Window.positions (Window.add_assign window pos) ->
  omap fst (BinaryErosion_at in_ (Patch.mk in_ window) pos) = MinimumFilter_at in_ window pos
  /\ omap fst (BinaryDilation_at in_ (Patch.mk in_ window) pos)
     = MaximumFilter_at in_ window pos.
Proof.
move=> wf_w sz_pos Enb pos_in; split.
- exact: BinaryErosion_at_centred Enb pos_in.
- exact: BinaryDilation_at_centred Enb pos_in.
Qed.

Lemma short_circuit_centred_witness :
  omap fst (BinaryErosion_at image3 (Patch.mk image3 square3) [:: 1; 1]%Z)
  = MinimumFilter_at image3 square3 [:: 1; 1]%Z
  /\ omap fst (BinaryDilation_at image3 (Patch.mk image3 square3) [:: 1; 1]%Z)
     = MaximumFilter_at image3 square3 [:: 1; 1]%Z.
Proof.
exact: (@short_circuit_centred image3 square3 [:: 1; 1]%Z
          [:: true; true; false; true; true; true; true; true; true]
          erefl erefl erefl erefl).
Defined.

(** ** Linear kernels *)

Section KernelDomain.

Variable T : Type.
Variable zero : T.
Variables add mul : T -> T -> T.
Variable is_complex : bool.
Variable conj : T -> T.

Lemma inner_product_from_short n i (f g : nat -> option T) init :
  (exists2 j, i <= j < i + n & g j = None) ->
  inner_product_from add mul n i f g init = None.
Proof.
elim: n i init => [|n IH] i init [j /andP [le_j lt_j] Ej] /=.
  by move: lt_j; rewrite addn0 ltnNge le_j.
case: (f i) => // a; case Eg: (g i) => [b|] //; apply: IH.
exists j => //; rewrite addSnnS lt_j andbT ltn_neqAle le_j andbT.
by apply/eqP => eq_j; rewrite -eq_j Eg in Ej.
Qed.

Lemma Convolution_rev (w v : seq T) :
  Convolution zero add mul w v
  = inner_product_from add mul (size w) 0 (onth (rev w)) (onth v) zero.
Proof.
rewrite /Convolution /Convolution_init /inner_product /=.
apply: inner_product_from_ext => j; rewrite add0n => /andP [_ lt_j]; rewrite lt_j.
have x0 : T by case: (w) lt_j.
have lt_r : size w - j.+1 < size w.
  by case: (size w) lt_j => // m _; rewrite subSS ltnS leq_subr.
by rewrite (onth_nth x0) // [RHS](onth_nth x0) ?size_rev // nth_rev.
Qed.

(** X10. A correlation or convolution kernel reads one neighbour per
    weight, without looking at the length of the neighbourhood
    ([std::inner_product] takes only the beginning of its second range): its
    value is defined exactly when the neighbourhood holds at least as many
    values as the kernel has weights. *)
Theorem kernel_defined (values neighbors : seq T) :
  isSome (Correlation zero add mul is_complex conj values neighbors)
  = (size values <= size neighbors)
  /\ isSome (Convolution zero add mul values neighbors) = (size values <= size neighbors).
Proof.
have sz_init : size (Correlation_init is_complex conj values) = size values.
  by rewrite /Correlation_init; case: is_complex; rewrite ?size_map.
rewrite Convolution_rev /Correlation /inner_product /= sz_init.
case: (leqP (size values) (size neighbors)) => [le_sz|lt_sz]; split.
- have [|//|y -> //] := @inner_product_from_some _ add mul (size values) 0
                          (Correlation_init is_complex conj values) neighbors zero.
  by rewrite add0n sz_init.
- have [|//|y -> //] := @inner_product_from_some _ add mul (size values) 0
                          (rev values) neighbors zero.
  by rewrite add0n size_rev.
- rewrite inner_product_from_short //.
  by exists (size neighbors); rewrite ?add0n //; apply: onth_size.
- rewrite inner_product_from_short //.
  by exists (size neighbors); rewrite ?add0n //; apply: onth_size.
Qed.

End KernelDomain.

Section GradientKernels.

(** The value type of the kernels, with exact arithmetic. *)
Variable R : comPzRingType.

Definition convolve (values neighbors : seq R) : option R :=
  Convolution 0%R +%R *%R values neighbors.

(** X11. The one-dimensional kernels of the gradient and Laplace filters,
    applied by convolution to the three neighbours [a], [b], [c] of
    increasing index: the derivation kernel [{sign, 0, -sign}] of
    [prewitt_gradient], [sobel_gradient] and [scharr_gradient] gives
    [sign * (c - a)], the difference in the increasing-index direction for
    [sign = 1]; the kernel [{sign, sign * -2, sign}] of [laplace_operator]
    gives [sign * (a - 2 b + c)]. *)
Theorem gradient_kernels (sign a b c : R) :
  convolve [:: sign; 0; - sign]%R [:: a; b; c] = Some (sign * (c - a))%R /\
  convolve [:: sign; sign * - 2%:R; sign]%R [:: a; b; c]
  = Some (sign * (a - 2%:R * b + c))%R.
Proof.
rewrite /convolve /Convolution /inner_product /=; split; congr Some.
- by rewrite add0r mul0r addr0 mulNr mulrBr addrC.
- by rewrite add0r !mulrDr !mulrN mulNr mulrA.
Qed.

End GradientKernels.

(** ** Windows of the kernel builders *)

(** A [std::size_t] value, and its conversion to [Index] (64 bits, two's
    complement). *)
Definition size_t (z : Z) : Z := (z mod 2 ^ 64)%Z.
Definition Index_of_size_t (z : Z) : Index := ((z + 2 ^ 63) mod 2 ^ 64 - 2 ^ 63)%Z.

(** [convolution_along<T, I0>(values)] and [correlation_along<T, I0>(values)]:
    the window of the one-dimensional kernel along axis [I0];
    [values.size() / 2] and the two coordinates are computed on
    [std::size_t]. *)
Definition along_window (I0 : nat) (T : Type) (values : seq T) : Box.t :=
  let n := Z.of_nat (size values) in
  let radius := (n / 2)%Z in
  let front := set_nth 0%Z (Position.zero I0.+1) I0 (Index_of_size_t (size_t (- radius))) in
  let back :=
    set_nth 0%Z (Position.zero I0.+1) I0 (Index_of_size_t (size_t (size_t (n - radius) - 1))) in
  Box.mk front back.

(** Modelled from the spec: the domain of a raster ([Raster::domain],
    [Raster.h] is not in the source tree) goes from the origin to
    [shape - 1]. *)
Definition domain (shape : Position) : Box.t :=
  Box.mk (Position.zero (size shape)) [seq (l - 1)%Z | l <- shape].

(** [convolution(values)] and [correlation(values)] with centered origin:
    the window [values.domain() - (values.shape() - 1) / 2]. *)
Definition centered_window (shape : Position) : Box.t :=
  Box.sub_assign (domain shape) [seq Z.quot (l - 1) 2 | l <- shape].

Lemma Index_of_size_t_small (z : Z) :
  (- 2 ^ 63 <= z < 2 ^ 63)%Z -> Index_of_size_t (size_t z) = z.
Proof.
move=> bounds; rewrite /Index_of_size_t /size_t Zplus_mod_idemp_l Z.mod_small; lia.
Qed.

Lemma along_window_corners (I0 : nat) (T : Type) (values : seq T) :
  (Z.of_nat (size values) < 2 ^ 63)%Z ->
  along_window I0 values
  = Box.mk (set_nth 0%Z (Position.zero I0.+1) I0 (- (Z.of_nat (size values) / 2))%Z)
           (set_nth 0%Z (Position.zero I0.+1) I0
              (Z.of_nat (size values) - Z.of_nat (size values) / 2 - 1)%Z).
Proof.
move=> lt_n; rewrite /along_window.
set n := Z.of_nat _ in lt_n *.
have n_ge0 : (0 <= n)%Z by rewrite /n; lia.
have [r_ge0 r_le] : (0 <= n / 2 /\ 2 * (n / 2) <= n)%Z.
  by have := Z.mul_div_le n 2; have := Z.div_pos n 2; lia.
have -> : size_t (n - n / 2) = (n - n / 2)%Z by rewrite /size_t Z.mod_small; lia.
by rewrite !Index_of_size_t_small //; lia.
Qed.

Lemma between_set_nth (I0 : nat) (lo hi : Z) :
  Box.between (set_nth 0%Z (Position.zero I0.+1) I0 lo)
              (set_nth 0%Z (Position.zero I0.+1) I0 hi) (Position.zero I0.+1)
  = (lo <=? 0)%Z && (0 <=? hi)%Z.
Proof.
rewrite /Position.zero; elim: I0 => [|I0 IH] /=; first by rewrite andbT.
by move: IH => /= ->.
Qed.

Lemma volume_set_nth (I0 : nat) (lo hi : Z) :
  Box.size (Box.mk (set_nth 0%Z (Position.zero I0.+1) I0 lo)
                   (set_nth 0%Z (Position.zero I0.+1) I0 hi))
  = Z.to_nat (hi - lo + 1).
Proof.
rewrite /Box.size /Box.shape /Position.zero /Position.zip_with /=.
elim: I0 => [|I0 IH] /=; first by rewrite muln1.
by move: IH => /= ->; rewrite mul1n.
Qed.

(** X12. The window of a one-dimensional kernel built along an axis holds
    one position per weight, so that the builder copies exactly the weights
    given, and it holds the origin as soon as there is a weight; along the
    axis it goes from [-(n / 2)] to [n - n / 2 - 1]. *)
Theorem along_window_spec (I0 : nat) (T : Type) (values : seq T) :
  (Z.of_nat (size values) < 2 ^ 63)%Z ->
  [/\ Box.wf (along_window I0 values),
      Box.size (along_window I0 values) = size values,
      Box.contains (along_window I0 values) (Position.zero I0.+1) = (0 < size values),
      nth 0%Z (Box.front (along_window I0 values)) I0 = (- (Z.of_nat (size values) / 2))%Z
    & nth 0%Z (Box.back (along_window I0 values)) I0
      = (Z.of_nat (size values) - Z.of_nat (size values) / 2 - 1)%Z].
Proof.
move=> lt_n; rewrite along_window_corners //.
set n := Z.of_nat (size values).
have n_ge0 : (0 <= n)%Z by rewrite /n; lia.
have [r_ge0 r_le] : (0 <= n / 2 /\ 2 * (n / 2) <= n)%Z.
  by have := Z.mul_div_le n 2; have := Z.div_pos n 2; lia.
split.
- by rewrite /Box.wf /= !size_set_nth.
- rewrite volume_set_nth.
  have -> : (n - n / 2 - 1 - - (n / 2) + 1 = n)%Z by lia.
  by rewrite /n Nat2Z.id.
- rewrite /Box.contains /= between_set_nth.
  have -> : (- (n / 2) <=? 0)%Z by apply/Z.leb_le; lia.
  have -> : (0 < size values) = (1 <=? n)%Z.
    by rewrite /n; case: (size values) => [|m] //; apply/esym/Z.leb_le; lia.
  by zbool.
- by rewrite /= nth_set_nth /= eqxx.
- by rewrite /= nth_set_nth /= eqxx.
Qed.

Lemma along_window_spec_witness :
  [/\ Box.wf (along_window 1 [:: 1; 2; 1]%Z),
      Box.size (along_window 1 [:: 1; 2; 1]%Z) = 3,
      Box.contains (along_window 1 [:: 1; 2; 1]%Z) (Position.zero 2) = (0 < 3),
      nth 0%Z (Box.front (along_window 1 [:: 1; 2; 1]%Z)) 1 = (- (3 / 2))%Z
    & nth 0%Z (Box.back (along_window 1 [:: 1; 2; 1]%Z)) 1 = (3 - 3 / 2 - 1)%Z].
Proof. exact: (@along_window_spec 1 Z [:: 1; 2; 1]%Z erefl). Defined.

(** X13. Along its axis, the window of [convolution_along] is the mirror
    of the centered window of [convolution(values)]: for [n] weights the first
    goes from [-(n / 2)] to [(n - 1) / 2], the second from [-((n - 1) / 2)] to
    [n / 2].  The two builders place the origin alike exactly for an odd
    number of weights; for an even number the centered window rounds the
    origin down, the window along an axis rounds it up. *)
Theorem along_window_centered (T : Type) (values : seq T) :
  0 < size values -> (Z.of_nat (size values) < 2 ^ 63)%Z ->
  along_window 0 values
  = Mask.box_opp (centered_window [:: Z.of_nat (size values)])
  /\ (along_window 0 values = centered_window [:: Z.of_nat (size values)]
      <-> odd (size values)).
Proof.
move=> gt0 lt_n; rewrite along_window_corners //.
rewrite /centered_window /domain /Box.sub_assign /Mask.box_opp /Mask.position_opp /=.
set n := Z.of_nat (size values).
have n_gt0 : (0 < n)%Z by rewrite /n; case: (size values) gt0 => //; lia.
rewrite Z.quot_div_nonneg; try lia.
have := Z_div_mod_eq_full n 2; have := Z.mod_pos_bound n 2.
have := Z_div_mod_eq_full (n - 1) 2; have := Z.mod_pos_bound (n - 1) 2.
move=> b1 e1 b2 e2.
have En : (n mod 2 = if odd (size values) then 1 else 0)%Z.
  rewrite /n -[size values in LHS]odd_double_half -muln2.
  rewrite Nat2Z.inj_add Nat2Z.inj_mul Z.mod_add //.
  by case: (odd _).
split.
- by congr (Box.mk [:: _] [:: _]); lia.
- rewrite /Position.sub /Position.zip_with /=.
  case: (odd (size values)) En => En; split=> //.
  + by move=> _; congr (Box.mk [:: _] [:: _]); lia.
  + by case; lia.
Qed.

Lemma along_window_centered_witness :
  along_window 0 [:: 1; 2; 3; 4]%Z = Mask.box_opp (centered_window [:: 4%Z])
  /\ (along_window 0 [:: 1; 2; 3; 4]%Z = centered_window [:: 4%Z] <-> odd 4).
Proof. exact: (@along_window_centered Z [:: 1; 2; 3; 4]%Z erefl erefl). Defined.

End Filters.

(** * Regions: Grid ([LitlRaster/Grid.h]) *)

Module Grid.

(** A box and a step along each axis. *)
Record t := mk { m_box : Box.t; m_step : Position }.

(** [Grid(box, step)]: the back of the box is moved down, along each axis,
    by [(length(i) - 1) % step[i]] ([%] truncates, as [Z.rem]). *)
Definition make (box : Box.t) (step : Position) : t :=
  let back :=
    mkseq (fun i => (nth 0 (Box.back box) i
                     - Z.rem (Box.length box i - 1) (nth 0 step i))%Z)
          (size (Box.back box)) in
  mk (Box.mk (Box.front box) back) step.

Definition box (g : t) : Box.t := m_box g.
Definition front (g : t) : Position := Box.front (m_box g).
Definition back (g : t) : Position := Box.back (m_box g).
Definition step (g : t) : Position := m_step g.
Definition dimension (g : t) : nat := Box.dimension (m_box g).

(** [length(i)]: [m_box.length(i) / m_step[i]] ([/] truncates, as
    [Z.quot]). *)
Definition length (g : t) (i : nat) : Z :=
  Z.quot (Box.length (m_box g) i) (nth 0%Z (m_step g) i).

(** [size()]: "the number of grid nodes". *)
Definition size (g : t) : Z :=
  foldl (fun out i => (out * length g i)%Z) (length g 0) (iota 1 (dimension g).-1).

(** Modelled from the spec: the iteration over a grid ([GridIterator.h] is
    not in the source tree) goes from the front, by the step along each axis,
    up to the back; row-major, the last axis varying fastest. *)
Definition axis_nodes (f k s : Z) : seq Z :=
  [seq (f + Z.of_nat j * s)%Z | j <- iota 0 (Z.to_nat ((k - f) / s + 1))].

Fixpoint nodes_between (f k s : Position) : seq Position :=
  match f, k, s with
  | x :: f', y :: k', z :: s' =>
      flatten [seq [seq u :: q | q <- nodes_between f' k' s'] | u <- axis_nodes x y z]
  | _, _, _ => [:: [::]]
  end.

Definition positions (g : t) : seq Position :=
  nodes_between (Box.front (m_box g)) (Box.back (m_box g)) (m_step g).

(** The count the spec gives: the product over the axes of
    [ceil(length / step)]. *)
Fixpoint ceil_count (f k s : Position) : Z :=
  match f, k, s with
  | x :: f', y :: k', z :: s' => ((y - x + 1 + z - 1) / z * ceil_count f' k' s')%Z
  | _, _, _ => 1%Z
  end.

(** [p] is congruent to [f] modulo [s] along every axis. *)
Fixpoint congruent (f s p : Position) : bool :=
  match f, s, p with
  | x :: f', z :: s', u :: p' => ((u - x) mod z =? 0)%Z && congruent f' s' p'
  | _, _, _ => true
  end.

(** Boxes of positive lengths, with positive steps, of one dimension. *)
Fixpoint positive (f k s : Position) : bool :=
  match f, k, s with
  | x :: f', y :: k', z :: s' => [&& (x <=? y)%Z, (0 <? z)%Z & positive f' k' s']
  | [::], [::], [::] => true
  | _, _, _ => false
  end.

(** The grid of the test [grid_region_tiling_test]. *)
Definition example : t := make (Box.mk [:: 3; 4]%Z [:: 9; 8]%Z) [:: 3; 3]%Z.

(** The back after the constructor, axis by axis. *)
Fixpoint trimmed (f k s : Position) : Position :=
  match f, k, s with
  | x :: f', y :: k', z :: s' => (y - Z.rem (y - x + 1 - 1) z)%Z :: trimmed f' k' s'
  | _, _, _ => [::]
  end.

Lemma back_make (f k s : Position) :
  positive f k s -> back (make (Box.mk f k) s) = trimmed f k s.
Proof.
rewrite /back /make /= /Box.length /=.
elim: f k s => [|x f IH] [|y k] [|z s] //= /and3P [_ _ /IH {}IH].
by rewrite /mkseq /= -[1]/(1 + 0) iotaDl -map_comp; congr (_ :: _).
Qed.

Lemma trimmed_steps (x y z : Z) :
  (0 < z)%Z -> ((y - (y - x + 1 - 1) mod z - x) / z + 1 = (y - x) / z + 1)%Z.
Proof.
move=> lt_z; have H := Z_div_mod_eq_full (y - x) z.
have -> : (y - x + 1 - 1 = y - x)%Z by lia.
have -> : (y - (y - x) mod z - x = (y - x) / z * z)%Z by lia.
by rewrite Z.div_mul //; lia.
Qed.

Lemma mem_axis_nodes (x y z u : Z) :
  (x <= y)%Z -> (0 < z)%Z ->
  (u \in axis_nodes x (y - Z.rem (y - x + 1 - 1) z) z)
  = [&& (x <=? u)%Z, (u <=? y)%Z & ((u - x) mod z =? 0)%Z].
Proof.
move=> le_xy lt_z; rewrite /axis_nodes Z.rem_mod_nonneg; try lia.
have -> : ((y - (y - x + 1 - 1) mod z - x) / z + 1 = (y - x) / z + 1)%Z.
  exact: trimmed_steps.
apply/mapP/and3P => [[j]|[/Z.leb_le le_xu /Z.leb_le le_uy /Z.eqb_eq mod0]].
  rewrite mem_iota add0n => /andP [_ /ltP lt_j] ->.
  have le_j : (Z.of_nat j <= (y - x) / z)%Z by lia.
  split; [apply/Z.leb_le|apply/Z.leb_le|apply/Z.eqb_eq].
  - by nia.
  - by move: le_j; Z.div_mod_to_equations; nia.
  - by rewrite Z.add_simpl_l Z.mod_mul; lia.
exists (Z.to_nat ((u - x) / z)).
  rewrite mem_iota add0n /=; apply/ltP.
  have : (0 <= (u - x) / z <= (y - x) / z)%Z.
    by split; [apply: Z.div_pos|apply: Z.div_le_mono]; lia.
  by lia.
have : (0 <= (u - x) / z)%Z by apply: Z.div_pos; lia.
by move: mod0; Z.div_mod_to_equations; nia.
Qed.

(** The back is trimmed onto a step boundary, within the box. *)
Lemma trimmed_boundary (f k s : Position) :
  positive f k s -> Box.between f k (trimmed f k s) && congruent f s (trimmed f k s).
Proof.
elim: f k s => [|x f IH] [|y k] [|z s] //=.
move=> /and3P [/Z.leb_le le_xy /Z.ltb_lt lt_z /IH /andP [-> ->]].
rewrite Z.rem_mod_nonneg; try lia.
have H := Z_div_mod_eq_full (y - x) z.
have [ge0 ltz] := Z.mod_pos_bound (y - x) z lt_z.
have -> : (y - x + 1 - 1 = y - x)%Z by lia.
have -> : (y - (y - x) mod z - x = (y - x) / z * z)%Z by lia.
rewrite Z.mod_mul; try lia.
have le_mod : ((y - x) mod z <= y - x)%Z by apply: Z.mod_le; lia.
by rewrite /= !andbT; apply/andP; split; apply/Z.leb_le; lia.
Qed.

(** The grid built from a box and a step holds the positions of the box
    that are congruent to its front modulo the step, no other. *)
Lemma mem_positions_make (f k s p : Position) :
  positive f k s ->
  (p \in positions (make (Box.mk f k) s)) = Box.between f k p && congruent f s p.
Proof.
move=> pos; rewrite /positions -/(back _) back_make //=.
elim: f k s p pos => [|x f IH] [|y k] [|z s] p //=.
move=> /and3P [/Z.leb_le le_xy /Z.ltb_lt lt_z pos].
apply/flatten_mapP/idP => [[u]|].
  rewrite mem_axis_nodes // => /and3P [le1 le2 mod0] /mapP [q q_in ->] /=.
  by move: q_in; rewrite IH // le1 le2 mod0 /= => /andP [-> ->].
case: p => [|u p] //= /andP [/and3P [le1 le2 btw] /andP [mod0 cong]].
exists u; first by rewrite mem_axis_nodes // le1 le2 mod0.
by apply/mapP; exists p; rewrite ?IH // btw cong.
Qed.

(** It holds [ceil(length / step)] nodes along each axis. *)
Lemma size_positions_make (f k s : Position) :
  positive f k s ->
  Z.of_nat (seq.size (positions (make (Box.mk f k) s))) = ceil_count f k s.
Proof.
move=> pos; rewrite /positions -/(back _) back_make //=.
elim: f k s pos => [|x f IH] [|y k] [|z s] //=.
move=> /and3P [/Z.leb_le le_xy /Z.ltb_lt lt_z /IH {}IH].
rewrite Box.size_flatten_rows /axis_nodes size_map size_iota -multE Nat2Z.inj_mul IH.
congr (_ * _)%Z; rewrite Z.rem_mod_nonneg; try lia.
have ge0 : (0 <= (y - x) / z)%Z by apply: Z.div_pos; lia.
rewrite trimmed_steps // Z2Nat.id; try lia.
have -> : (y - x + 1 + z - 1 = (y - x) + 1 * z)%Z by lia.
by rewrite Z.div_add //; lia.
Qed.

(** C2 (the code departs from the claim).  On the grid of the repository's
    own test, the box from (3,4) to (9,8) with step (3,3), [size()] answers
    2 where the grid has 6 nodes, the product of [ceil(7/3)] and
    [ceil(5/3)]: after the back has been trimmed, [length(i)] divides the
    trimmed length by the step and loses the last node of every axis whose
    step is not 1. *)
Theorem size_not_node_count :
  [/\ size example = 2%Z,
      seq.size (positions example) = 6
    & ceil_count [:: 3; 4]%Z [:: 9; 8]%Z [:: 3; 3]%Z = 6%Z].
Proof. by split; vm_compute. Qed.

(** ** Further properties of [Grid] *)

(** [operator==]. *)
Definition eqb (g other : t) : bool :=
  [&& Box.front (m_box g) == Box.front (m_box other),
      Box.back (m_box g) == Box.back (m_box other)
    & m_step g == m_step other].

(** [operator+=(shift)] and [operator-=(shift)]: the box moves, the step
    stays. *)
Definition add_assign (g : t) (shift : Position) : t :=
  mk (Box.add_assign (m_box g) shift) (m_step g).

Definition sub_assign (g : t) (shift : Position) : t :=
  mk (Box.sub_assign (m_box g) shift) (m_step g).

Lemma grid_eqbP (g other : t) : reflect (g = other) (eqb g other).
Proof.
case: g other => [[f k] s] [[f' k'] s']; rewrite /eqb /=.
by apply: (iffP and3P) => [[/eqP -> /eqP -> /eqP ->] //|[-> -> ->]].
Qed.

Lemma positive_nth (f k s : Position) (i : nat) :
  positive f k s -> i < seq.size f ->
  [/\ (nth 0 f i <= nth 0 k i)%Z, (0 < nth 0 s i)%Z
    & nth 0%Z (trimmed f k s) i
      = (nth 0 k i - Z.rem (nth 0 k i - nth 0 f i + 1 - 1) (nth 0 s i))%Z].
Proof.
elim: f k s i => [|x f IH] [|y k] [|z s] [|i] //=.
  by move=> /and3P [/Z.leb_le le_xy /Z.ltb_lt lt_z _] _.
by move=> /and3P [_ _ pos] lt_i; apply: IH.
Qed.

Lemma positive_size (f k s : Position) :
  positive f k s -> seq.size k = seq.size f /\ seq.size s = seq.size f.
Proof.
by elim: f k s => [|x f IH] [|y k] [|z s] //= /and3P [_ _ /IH [-> ->]].
Qed.

Lemma positive_trimmed (f k s : Position) :
  positive f k s -> positive f (trimmed f k s) s.
Proof.
elim: f k s => [|x f IH] [|y k] [|z s] //=.
move=> /and3P [/Z.leb_le le_xy /Z.ltb_lt lt_z /IH ->].
rewrite Z.rem_mod_nonneg; try lia.
have le_mod : ((y - x + 1 - 1) mod z <= y - x + 1 - 1)%Z by apply: Z.mod_le; lia.
by rewrite andbT; apply/andP; split; [apply/Z.leb_le|apply/Z.ltb_lt]; lia.
Qed.

Lemma trimmed_trimmed (f k s : Position) :
  positive f k s -> trimmed f (trimmed f k s) s = trimmed f k s.
Proof.
elim: f k s => [|x f IH] [|y k] [|z s] //=.
move=> /and3P [/Z.leb_le le_xy /Z.ltb_lt lt_z /IH ->]; congr (_ :: _).
have le_mod : ((y - x + 1 - 1) mod z <= y - x + 1 - 1)%Z by apply: Z.mod_le; lia.
rewrite !Z.rem_mod_nonneg; try lia.
have H := Z_div_mod_eq_full (y - x) z.
have -> : (y - x + 1 - 1 = y - x)%Z by lia.
have -> : (y - (y - x) mod z - x + 1 - 1 = (y - x) / z * z)%Z by lia.
by rewrite Z.mod_mul; lia.
Qed.

Lemma trimmed_add (f k s v : Position) :
  positive f k s -> seq.size v = seq.size f ->
  trimmed (Position.add f v) (Position.add k v) s = Position.add (trimmed f k s) v.
Proof.
rewrite /Position.add /Position.zip_with.
elim: f k s v => [|x f IH] [|y k] [|z s] [|w v] //=.
move=> /and3P [_ _ pos] [sz_v]; rewrite IH //; congr (_ :: _).
by have -> : (y + w - (x + w) + 1 - 1 = y - x + 1 - 1)%Z; lia.
Qed.

Lemma positive_add (f k s v : Position) :
  positive f k s -> seq.size v = seq.size f ->
  positive (Position.add f v) (Position.add k v) s.
Proof.
rewrite /Position.add /Position.zip_with.
elim: f k s v => [|x f IH] [|y k] [|z s] [|w v] //=.
move=> /and3P [/Z.leb_le le_xy -> pos] [sz_v]; rewrite IH // andbT.
by have -> : (x + w <=? y + w)%Z = true by apply/Z.leb_le; lia.
Qed.

(** X14. The constructor keeps the front and the step, and moves the back
    down, along each axis, to the last step boundary of the box: the new
    back lies between the front and the old back, less than one step below
    the old back, at a multiple of the step from the front. *)
Theorem make_trims (f k s : Position) (i : nat) :
  positive f k s -> i < seq.size f ->
  [/\ front (make (Box.mk f k) s) = f,
      step (make (Box.mk f k) s) = s,
      (nth 0 f i <= nth 0 (back (make (Box.mk f k) s)) i <= nth 0 k i)%Z,
      (nth 0 k i - nth 0 (back (make (Box.mk f k) s)) i < nth 0 s i)%Z
    & ((nth 0 (back (make (Box.mk f k) s)) i - nth 0 f i) mod nth 0 s i = 0)%Z].
Proof.
move=> pos lt_i; rewrite back_make //.
have [le_fk lt_s ->] := positive_nth pos lt_i.
rewrite Z.rem_mod_nonneg; try lia.
have H := Z_div_mod_eq_full (nth 0 k i - nth 0 f i)%Z (nth 0%Z s i).
have [ge0 ltz] := Z.mod_pos_bound (nth 0 k i - nth 0 f i)%Z (nth 0%Z s i) lt_s.
have le_mod : ((nth 0 k i - nth 0 f i) mod nth 0 s i <= nth 0 k i - nth 0 f i)%Z.
  by apply: Z.mod_le; lia.
have -> : (nth 0 k i - nth 0 f i + 1 - 1 = nth 0 k i - nth 0 f i)%Z by lia.
split=> //; try lia.
have -> : (nth 0 k i - (nth 0 k i - nth 0 f i) mod nth 0 s i - nth 0 f i
           = (nth 0 k i - nth 0 f i) / nth 0 s i * nth 0 s i)%Z by lia.
by rewrite Z.mod_mul; lia.
Qed.

Lemma make_trims_witness :
  [/\ front (make (Box.mk [:: 3; 4]%Z [:: 9; 8]%Z) [:: 3; 3]%Z) = [:: 3; 4]%Z,
      step (make (Box.mk [:: 3; 4]%Z [:: 9; 8]%Z) [:: 3; 3]%Z) = [:: 3; 3]%Z,
      (nth 0 [:: 3; 4] 1
       <= nth 0 (back (make (Box.mk [:: 3; 4]%Z [:: 9; 8]%Z) [:: 3; 3]%Z)) 1
       <= nth 0 [:: 9; 8] 1)%Z,
      (nth 0 [:: 9; 8] 1
       - nth 0 (back (make (Box.mk [:: 3; 4]%Z [:: 9; 8]%Z) [:: 3; 3]%Z)) 1
       < nth 0 [:: 3; 3] 1)%Z
    & ((nth 0 (back (make (Box.mk [:: 3; 4]%Z [:: 9; 8]%Z) [:: 3; 3]%Z)) 1
        - nth 0 [:: 3; 4] 1) mod nth 0 [:: 3; 3] 1 = 0)%Z].
Proof.
exact: (@make_trims [:: 3; 4]%Z [:: 9; 8]%Z [:: 3; 3]%Z 1 erefl erefl).
Defined.

(** X15. After construction, [length(i)] is the number of nodes along the
    axis, [ceil(box length / step)], when the step is 1, and one less than
    that number when the step is larger. *)
Theorem length_make (f k s : Position) (i : nat) :
  positive f k s -> i < seq.size f ->
  length (make (Box.mk f k) s) i
  = ((nth 0 k i - nth 0 f i + 1 + nth 0 s i - 1) / nth 0 s i
     - (if nth 0%Z s i == 1%Z then 0 else 1))%Z.
Proof.
move=> pos lt_i.
have -> : length (make (Box.mk f k) s) i
          = Z.quot (nth 0 (trimmed f k s) i - nth 0 f i + 1)%Z (nth 0%Z s i).
  by rewrite -back_make.
have [le_fk lt_s ->] := positive_nth pos lt_i.
set a := (nth 0 k i - nth 0 f i)%Z; set z := nth 0%Z s i in lt_s *.
have ge0 : (0 <= a)%Z by rewrite /a; lia.
rewrite Z.rem_mod_nonneg; try lia.
have H := Z_div_mod_eq_full a z.
have [ge0m ltz] := Z.mod_pos_bound a z lt_s.
have q_ge0 : (0 <= a / z)%Z by apply: Z.div_pos; lia.
have -> : (nth 0 k i - (a + 1 - 1) mod z - nth 0 f i + 1 = a / z * z + 1)%Z.
  by rewrite /a in H *; have -> : (a + 1 - 1 = a)%Z; rewrite /a; lia.
have -> : (a + 1 + z - 1 = a + 1 * z)%Z by lia.
rewrite Z.div_add; try lia.
rewrite Z.quot_div_nonneg; try nia.
case: eqP => [z1|z_n1].
  by rewrite z1 Z.div_1_r; lia.
rewrite Z.add_comm Z.div_add; try lia.
by rewrite Z.div_small; lia.
Qed.

Lemma length_make_witness :
  length (make (Box.mk [:: 3; 4]%Z [:: 9; 8]%Z) [:: 3; 3]%Z) 0
  = ((nth 0 [:: 9; 8] 0 - nth 0 [:: 3; 4] 0 + 1 + nth 0 [:: 3; 3] 0 - 1)
     / nth 0 [:: 3; 3] 0
     - (if nth 0%Z [:: 3; 3]%Z 0 == 1%Z then 0 else 1))%Z.
Proof.
exact: (@length_make [:: 3; 4]%Z [:: 9; 8]%Z [:: 3; 3]%Z 0 erefl erefl).
Defined.

(** X16. Building a grid from the box of a grid, with the same step, gives
    the grid back: the trimming is idempotent. *)
Theorem make_idempotent (f k s : Position) :
  positive f k s ->
  make (box (make (Box.mk f k) s)) s = make (Box.mk f k) s.
Proof.
move=> pos.
have E g : g = mk (Box.mk (front g) (back g)) (step g) by case: g => [[? ?] ?].
rewrite (E (make (Box.mk f k) s)) /box /= -/(front _) -/(back _).
rewrite (E (make (Box.mk (front _) (back _)) s)) /=.
by rewrite !back_make /= ?trimmed_trimmed ?back_make //; apply: positive_trimmed.
Qed.

Lemma make_idempotent_witness :
  make (box (make (Box.mk [:: 3; 4]%Z [:: 9; 8]%Z) [:: 3; 3]%Z)) [:: 3; 3]%Z
  = make (Box.mk [:: 3; 4]%Z [:: 9; 8]%Z) [:: 3; 3]%Z.
Proof. exact: (@make_idempotent [:: 3; 4]%Z [:: 9; 8]%Z [:: 3; 3]%Z erefl). Defined.

(** X17. Translating a grid moves its box and keeps its step; it is the grid
    of the translated box, and translating by a vector and then by its
    opposite restores the grid ([(g += v) -= v == g]). *)
Theorem translate_make (f k s v : Position) :
  positive f k s -> seq.size v = seq.size f ->
  [/\ step (add_assign (make (Box.mk f k) s) v) = s,
      make (Box.add_assign (Box.mk f k) v) s = add_assign (make (Box.mk f k) s) v
    & eqb (sub_assign (add_assign (make (Box.mk f k) s) v) v) (make (Box.mk f k) s)].
Proof.
move=> pos sz_v; have [sz_k sz_s] := positive_size pos.
have E g : g = mk (Box.mk (front g) (back g)) (step g) by case: g => [[? ?] ?].
have Eb : back (make (Box.mk f k) s) = trimmed f k s by exact: back_make.
split=> //.
- have Ev : back (make (Box.mk (Position.add f v) (Position.add k v)) s)
            = Position.add (trimmed f k s) v.
    by rewrite back_make ?trimmed_add //; apply: positive_add.
  rewrite /Box.add_assign /= (E (make (Box.mk (Position.add f v) _) s)) Ev.
  rewrite (E (make (Box.mk f k) s)) Eb.
  by rewrite /add_assign /Box.add_assign.
- apply/grid_eqbP; rewrite /sub_assign /add_assign /= Box.translate_back //.
  by rewrite /Box.wf /= size_mkseq sz_k.
Qed.

Lemma translate_make_witness :
  [/\ step (add_assign (make (Box.mk [:: 3; 4]%Z [:: 9; 8]%Z) [:: 3; 3]%Z)
              [:: 10; -2]%Z) = [:: 3; 3]%Z,
      make (Box.add_assign (Box.mk [:: 3; 4]%Z [:: 9; 8]%Z) [:: 10; -2]%Z) [:: 3; 3]%Z
      = add_assign (make (Box.mk [:: 3; 4]%Z [:: 9; 8]%Z) [:: 3; 3]%Z) [:: 10; -2]%Z
    & eqb (sub_assign (add_assign (make (Box.mk [:: 3; 4]%Z [:: 9; 8]%Z) [:: 3; 3]%Z)
                         [:: 10; -2]%Z) [:: 10; -2]%Z)
          (make (Box.mk [:: 3; 4]%Z [:: 9; 8]%Z) [:: 3; 3]%Z)].
Proof.
exact: (@translate_make [:: 3; 4]%Z [:: 9; 8]%Z [:: 3; 3]%Z [:: 10; -2]%Z erefl erefl).
Defined.

(** [operator-()]: [{-m_box, -m_step}], a grid built by the constructor
    from the mirrored box and the opposite step. *)
Definition opp (g : t) : t :=
  make (Mask.box_opp (m_box g)) (Mask.position_opp (m_step g)).

Lemma make_trimmed (f k s : Position) :
  positive f k s -> make (Box.mk f k) s = mk (Box.mk f (trimmed f k s)) s.
Proof.
by move=> pos; rewrite -(back_make pos).
Qed.

Lemma opp_back (f k s : Position) :
  positive f k s ->
  back (make (Box.mk (Mask.position_opp (trimmed f k s)) (Mask.position_opp f))
             (Mask.position_opp s))
  = Mask.position_opp f.
Proof.
rewrite /back /make /= /Box.length /= /Mask.position_opp size_map.
elim: f k s => [|x f IH] [|y k] [|z s] //=.
move=> /and3P [/Z.leb_le le_xy /Z.ltb_lt lt_z /IH {}IH].
rewrite /mkseq /= -[1]/(1 + 0) iotaDl -map_comp; congr (_ :: _); last exact: IH.
have -> : (y - x + 1 - 1 = y - x)%Z by lia.
have -> : Z.rem (y - x) z = ((y - x) mod z)%Z by rewrite Z.rem_mod_nonneg; lia.
have H := Z_div_mod_eq_full (y - x) z.
have -> : (- x - - (y - (y - x) mod z) + 1 - 1 = (y - x) / z * z)%Z by lia.
by rewrite Z.rem_opp_r ?Z.rem_mul; lia.
Qed.

(** X18. [operator-()] on a grid gives the grid of the mirrored box, with
    the opposite step: the step of every axis becomes negative, and
    [length(i)], which divides by the step, changes sign. *)
Theorem opp_make (f k s : Position) (i : nat) :
  positive f k s -> i < seq.size f ->
  [/\ box (opp (make (Box.mk f k) s)) = Mask.box_opp (box (make (Box.mk f k) s)),
      step (opp (make (Box.mk f k) s)) = Mask.position_opp s
    & length (opp (make (Box.mk f k) s)) i = (- length (make (Box.mk f k) s) i)%Z].
Proof.
move=> pos lt_i; have [sz_k sz_s] := positive_size pos.
have [le_fk lt_s Ei] := positive_nth pos lt_i.
have Eb := opp_back pos.
have E : make (Box.mk (Mask.position_opp (trimmed f k s)) (Mask.position_opp f))
              (Mask.position_opp s)
         = mk (Box.mk (Mask.position_opp (trimmed f k s)) (Mask.position_opp f))
              (Mask.position_opp s).
  by move: Eb; rewrite /back /make /= => ->.
have Eopp : opp (make (Box.mk f k) s)
            = mk (Box.mk (Mask.position_opp (trimmed f k s)) (Mask.position_opp f))
                 (Mask.position_opp s).
  by rewrite make_trimmed //; exact: E.
rewrite Eopp make_trimmed //; split=> //.
have sz_t : seq.size (trimmed f k s) = seq.size f.
  by elim: f k s pos {sz_k sz_s le_fk lt_s Ei Eb E Eopp lt_i}
       => [|x f IH] [|y k] [|z s] //= /and3P [_ _ /IH ->].
rewrite /length /Box.length /= /Mask.position_opp.
have s_n0 : nth 0%Z s i <> 0%Z by lia.
rewrite !(nth_map 0%Z) ?sz_t ?sz_s // Z.quot_opp_r //.
by congr (- Z.quot _ _)%Z; lia.
Qed.

Lemma opp_make_witness :
  [/\ box (opp (make (Box.mk [:: 3; 4]%Z [:: 9; 8]%Z) [:: 3; 3]%Z))
      = Mask.box_opp (box (make (Box.mk [:: 3; 4]%Z [:: 9; 8]%Z) [:: 3; 3]%Z)),
      step (opp (make (Box.mk [:: 3; 4]%Z [:: 9; 8]%Z) [:: 3; 3]%Z))
      = Mask.position_opp [:: 3; 3]%Z
    & length (opp (make (Box.mk [:: 3; 4]%Z [:: 9; 8]%Z) [:: 3; 3]%Z)) 0
      = (- length (make (Box.mk [:: 3; 4]%Z [:: 9; 8]%Z) [:: 3; 3]%Z) 0)%Z].
Proof. exact: (@opp_make [:: 3; 4]%Z [:: 9; 8]%Z [:: 3; 3]%Z 0 erefl erefl). Defined.

End Grid.

(** * Binary64 helpers *)

Module Double.

(** A [double] that is a number: a zero or a finite non-zero value. *)
Definition sf_number (x : spec_float) : bool :=
  match x with
  | S754_zero _ | S754_finite _ _ _ => true
  | S754_infinity _ | S754_nan => false
  end.

Definition number (x : float) : bool := sf_number (Prim2SF x).

(** The same number: identical, or two zeros (of any signs). *)
Definition sf_same (x y : spec_float) : Prop :=
  x = y \/ exists s s', x = S754_zero s /\ y = S754_zero s'.

Definition same (x y : float) : Prop := sf_same (Prim2SF x) (Prim2SF y).

(** The conversion of a [double] to [Index] (a 64-bit [long]): the
    fractional part is discarded (truncation towards zero); the conversion
    of a [double] that is not a number, or whose truncation does not fit, is
    undefined. *)
Definition to_Index (x : float) : option Z :=
  match Prim2SF x with
  | S754_zero _ => Some 0%Z
  | S754_finite s m e =>
      let a := if (0 <=? e)%Z then (Z.pos m * 2 ^ e)%Z else (Z.pos m / 2 ^ (- e))%Z in
      let z := if s then (- a)%Z else a in
      if (- 2 ^ 63 <=? z)%Z && (z <? 2 ^ 63)%Z then Some z else None
  | S754_infinity _ | S754_nan => None
  end.

(** The conversion of an [Index] to [double]: the nearest [double], ties to
    even. *)
Definition of_Index (z : Z) : float := SF2Prim (binary_normalize prec emax z 0 false).

(** Modelled from the spec: [floor<Index>(double)] (its header is not in the
    source tree), the largest integer not above a [double]; undefined on a
    [double] that is not a number or whose floor does not fit. *)
Definition floor (x : float) : option Z :=
  match Prim2SF x with
  | S754_zero _ => Some 0%Z
  | S754_finite s m e =>
      let n := if s then Z.neg m else Z.pos m in
      let z := if (0 <=? e)%Z then (n * 2 ^ e)%Z else (n / 2 ^ (- e))%Z in
      if (- 2 ^ 63 <=? z)%Z && (z <? 2 ^ 63)%Z then Some z else None
  | S754_infinity _ | S754_nan => None
  end.

(** The nearest integer to a [double], a tie going away from zero
    ([std::round]): [floor (|x| + 1/2)] with the sign of [x], computed
    exactly. *)
Definition round_half_away (x : float) : option Z :=
  match Prim2SF x with
  | S754_zero _ => Some 0%Z
  | S754_finite s m e =>
      let a := if (0 <=? e)%Z then (Z.pos m * 2 ^ e)%Z
               else ((Z.pos m + 2 ^ (- e - 1)) / 2 ^ (- e))%Z in
      Some (if s then (- a)%Z else a)
  | S754_infinity _ | S754_nan => None
  end.

Lemma sub_self (x : float) : number x -> Prim2SF (x - x) = S754_zero false.
Proof.
rewrite /number sub_spec /SF64sub; case: (Prim2SF x) => [[]|s||s m e] //= _.
by rewrite Z.sub_diag.
Qed.

(** A finite difference has finite operands. *)
Lemma sf_number_sub_r (N P : spec_float) : sf_number (SF64sub N P) -> sf_number P.
Proof. by case: P => [s|s||s m e] //; case: N => [[]|[]||s' m' e'] //; case: s. Qed.

(** [0 * y + p] is [p] when [y] and [p] are numbers, up to the sign of a
    zero. *)
Lemma sf_lerp_zero (Y P : spec_float) :
  sf_number Y -> sf_number P ->
  sf_same (SF64add (SF64mul (S754_zero false) Y) P) P.
Proof.
case: Y => [sy|sy||sy my ey] // _; case: P => [sp|sp||sp mp ep] // _;
  rewrite /SF64mul /SF64add /=; try by left.
- by right; case: sy; case: sp; do 2!eexists.
- by right; case: sy; case: sp; do 2!eexists.
Qed.

(** Finiteness of a difference does not depend on the signs of zeros. *)
Lemma sf_number_sub_same (N N' P P' : spec_float) :
  sf_same N' N -> sf_same P' P ->
  sf_number (SF64sub N P) -> sf_number (SF64sub N' P').
Proof.
move=> [->|[s [s' [-> ->]]]] [->|[t [t' [-> ->]]]] //.
- by case: N => [[]|[]||? ? ?] //; case: t; case: t'.
- by case: P => [[]|[]||? ? ?] //; case: s; case: s'.
- by case: s; case: t.
Qed.

Lemma sf_same_trans (X Y Z : spec_float) : sf_same X Y -> sf_same Y Z -> sf_same X Z.
Proof.
move=> [->|[s [s' [-> ->]]]] // [<-|[t [t' [[_] ->]]]]; first by right; do 2!eexists.
by right; do 2!eexists.
Qed.

Lemma sf_same_number (X Y : spec_float) : sf_same X Y -> sf_number Y -> sf_number X.
Proof. by move=> [->|[s [s' [-> ->]]]]. Qed.

(** The same number compares equal with [==]. *)
Lemma same_eqb (v s : float) : same v s -> number s -> (v =? s)%float = true.
Proof.
rewrite /same /number eqb_spec => -[->|[a [b [-> ->]]]] //.
case: (Prim2SF s) => [?|?||sg m e] // _; rewrite /SFeqb /=.
by case: sg; rewrite Z.compare_refl Pos.compare_cont_refl.
Qed.

End Double.

(** * Boundary and interpolation policies
      ([Linx/Transforms/impl/ResamplingMethods.h]) *)

Module Nearest.

(** [Nearest::at(raster, position)] at a real position: each coordinate [e]
    becomes the [Index] that [e + .5] converts to, and the raster is read
    there. *)
Definition integral (position : seq float) : option Position :=
  oseq [seq Double.to_Index (e + 0.5)%float | e <- position].

Definition at_ (T : Type) (raster : Raster.t T) (position : seq float) : option T :=
  if integral position is Some integral then Raster.get raster integral else None.

(** What the claim describes: the read at the position rounded to nearest,
    ties away from zero. *)
Definition rounded (position : seq float) : option Position :=
  oseq [seq Double.round_half_away e | e <- position].

Definition at_rounded (T : Type) (raster : Raster.t T) (position : seq float) : option T :=
  if rounded position is Some integral then Raster.get raster integral else None.

(** Three samples on a line. *)
Definition samples : Raster.t Z := Raster.mk [:: 3%Z] [:: 10; 20; 30]%Z.

(** The largest [double] below one half. *)
Definition below_half : float := 0x1.fffffffffffffp-2%float.

(** C4 (the code departs from the claim).  [e + .5] converted to [Index] is
    not the rounding to nearest, ties away from zero:
    - at 0.49999999999999994, the sum [e + .5] rounds up to 1.0 and the code
      reads the sample at 1 where the nearest integer is 0;
    - at -0.75 the code truncates -0.25 to 0 and reads the sample at 0 where
      the nearest integer, -1, is out of the raster;
    - at -2.5 the code goes to -2 where the tie goes away from zero to -3. *)
Theorem nearest_is_not_round :
  [/\ at_ samples [:: below_half] = Some 20%Z
      /\ at_rounded samples [:: below_half] = Some 10%Z,
      at_ samples [:: (-0.75)%float] = Some 10%Z
      /\ at_rounded samples [:: (-0.75)%float] = None
    & integral [:: (-2.5)%float] = Some [:: (-2)%Z]
      /\ rounded [:: (-2.5)%float] = Some [:: (-3)%Z]].
Proof. by split; split; vm_compute. Qed.

(** On the other hand the two agree wherever the claim can be checked by
    hand on small non-negative values. *)
Lemma nearest_examples :
  [/\ integral [:: 0.25; 1.5; 2.75]%float = Some [:: 0; 2; 3]%Z,
      rounded [:: 0.25; 1.5; 2.75]%float = Some [:: 0; 2; 3]%Z
    & at_ samples [:: 1.5%float] = Some 30%Z].
Proof. by split; vm_compute. Qed.

End Nearest.

Module Linear.

Section At.

(** [floor<Index>(double)], whose header is not in the source tree: the
    interpolation is stated for any such function ([Double.floor] is one). *)
Variable floor_Index : float -> option Z.

(** [Linear::at(raster, position, indices...)].  The coordinates are consumed
    from the last one ([position.back()], then [slice<N - 1>(position)]), so
    the recursion runs over the position reversed; the one-dimensional
    overload reads the raster at [{f, indices...}] and [{f + 1, indices...}],
    the other one interpolates two recursive results. *)
Fixpoint at_rec (raster : Raster.t float) (rposition : seq float) (indices : Position)
  : option float :=
  match rposition with
  | [::] => None
  | x :: rest =>
      match floor_Index x with
      | None => None
      | Some f =>
          let d := (x - Double.of_Index f)%float in
          match rest with
          | [::] =>
              match Raster.get raster (f :: indices),
                    Raster.get raster ((f + 1)%Z :: indices) with
              | Some p, Some n => Some (d * (n - p) + p)%float
              | _, _ => None
              end
          | _ :: _ =>
              match at_rec raster rest (f :: indices),
                    at_rec raster rest ((f + 1)%Z :: indices) with
              | Some p, Some n => Some (d * (n - p) + p)%float
              | _, _ => None
              end
          end
      end
  end.

Definition at_ (raster : Raster.t float) (position : seq float) : option float :=
  at_rec raster (rev position) [::].

(** The coordinate [x] is the integer [k], exactly. *)
Definition integer_coordinate (x : float) (k : Z) : Prop :=
  [/\ floor_Index x = Some k, Double.of_Index k = x & Double.number x].

Fixpoint integer_position (position : seq float) (ks : Position) : Prop :=
  match position, ks with
  | x :: position', k :: ks' => integer_coordinate x k /\ integer_position position' ks'
  | [::], [::] => True
  | _, _ => False
  end.

(** The positions the interpolation at [ks] reads: [ks] and its right
    neighbours, one step or none along each axis. *)
Fixpoint corner (ks q : Position) : bool :=
  match ks, q with
  | k :: ks', c :: q' => ((c == k) || (c == (k + 1)%Z)) && corner ks' q'
  | [::], [::] => true
  | _, _ => false
  end.

(** The difference of any two values read at the taps of [ks] is a number:
    no tap is infinite or NaN and no subtraction overflows. *)
Definition finite_taps (raster : Raster.t float) (ks indices : Position) : Prop :=
  forall q q' p n,
    corner ks q -> corner ks q' ->
    Raster.get raster (q ++ indices) = Some p ->
    Raster.get raster (q' ++ indices) = Some n ->
    Double.number (n - p)%float.

(** One interpolation step at an integer coordinate gives back its left
    operand. *)
Lemma lerp_integer (x : float) (k : Z) (p n P N : float) :
  integer_coordinate x k -> Double.same p P -> Double.same n N ->
  Double.number (N - P)%float ->
  Double.same ((x - Double.of_Index k) * (n - p) + p)%float P.
Proof.
move=> [_ -> num_x] same_p same_n; rewrite /Double.number sub_spec => num_NP.
have num_np : Double.sf_number (Prim2SF (n - p)%float).
  by rewrite sub_spec; apply: Double.sf_number_sub_same num_NP.
have num_p : Double.sf_number (Prim2SF p).
  by move: num_np; rewrite sub_spec; apply: Double.sf_number_sub_r.
apply: Double.sf_same_trans same_p.
by rewrite add_spec mul_spec Double.sub_self //; apply: Double.sf_lerp_zero.
Qed.

Lemma corner_rcons (ks q : Position) (k c : Z) :
  corner ks q -> (c == k) || (c == (k + 1)%Z) -> corner (rcons ks k) (rcons q c).
Proof.
elim: ks q => [|k0 ks IH] [|c0 q] //=; first by move=> _ ->.
by move=> /andP [-> /IH {}IH] /IH ->.
Qed.

Lemma corner_refl (ks : Position) : corner ks ks.
Proof. by elim: ks => [|k ks IH] //=; rewrite eqxx IH. Qed.

Lemma integer_position_rcons (position : seq float) (ks : Position) (x : float) (k : Z) :
  integer_position position ks -> integer_coordinate x k ->
  integer_position (rcons position x) (rcons ks k).
Proof.
elim: position ks => [|y position IH] [|k0 ks] //=.
by move=> [Hy /IH {}IH] /IH.
Qed.

Lemma integer_position_rev (position : seq float) (ks : Position) :
  integer_position position ks -> integer_position (rev position) (rev ks).
Proof.
elim: position ks => [|y position IH] [|k0 ks] //= [Hy /IH {}IH].
by rewrite !rev_cons; apply: integer_position_rcons.
Qed.

Lemma finite_taps_rcons (raster : Raster.t float) (ks indices : Position) (k c : Z) :
  (c == k) || (c == (k + 1)%Z) ->
  finite_taps raster (rcons ks k) indices -> finite_taps raster ks (c :: indices).
Proof.
move=> c_k fin q q' p n cor_q cor_q'; rewrite -!cat_rcons.
by apply: fin; apply: corner_rcons.
Qed.

Lemma at_rec_integer (raster : Raster.t float) (rposition : seq float)
  (rks indices : Position) :
  0 < size rposition -> integer_position rposition rks ->
  (forall q, corner (rev rks) q -> isSome (Raster.get raster (q ++ indices))) ->
  finite_taps raster (rev rks) indices ->
  exists v s,
    [/\ at_rec raster rposition indices = Some v,
        Raster.get raster (rev rks ++ indices) = Some s
      & Double.same v s].
Proof.
elim: rposition rks indices => [|x rest IH] [|k rks] indices //= _.
move=> [int_x int_rest] taps; have [-> _ _] := int_x.
rewrite rev_cons => fin.
have taps_at c q : (c == k) || (c == (k + 1)%Z) -> corner (rev rks) q ->
    isSome (Raster.get raster (q ++ c :: indices)).
  move=> c_k cor_q; rewrite -cat_rcons; apply: taps.
  by rewrite rev_cons; apply: corner_rcons.
have fin_PN P N :
    Raster.get raster (rev rks ++ k :: indices) = Some P ->
    Raster.get raster (rev rks ++ (k + 1)%Z :: indices) = Some N ->
    Double.number (N - P)%float.
  rewrite -!cat_rcons; apply: fin; apply: corner_rcons (corner_refl _) _.
    by rewrite eqxx.
  by rewrite eqxx orbT.
rewrite cat_rcons.
case: rest IH int_rest => [|y rest] IH int_rest.
  case: rks int_rest taps_at fin_PN {taps fin} => [|//] _ taps_at fin_PN /=.
  have := taps_at k [::]; rewrite eqxx /= => /(_ isT isT).
  have := taps_at (k + 1)%Z [::]; rewrite eqxx orbT /= => /(_ isT isT).
  case En: (Raster.get _ (_ + 1 :: _)%Z) => [n|] // _.
  case Ep: (Raster.get _ (k :: _)) => [p|] // _.
  exists (((x - Double.of_Index k) * (n - p) + p)%float), p; split=> //.
  apply: lerp_integer (int_x) _ _ _; try by left.
  exact: fin_PN.
have [||p [P [-> EP same_p]]] := IH rks (k :: indices) isT int_rest.
- by move=> q; apply: taps_at; rewrite eqxx.
- by apply: finite_taps_rcons fin; rewrite eqxx.
have [||n [N [-> EN same_n]]] := IH rks ((k + 1)%Z :: indices) isT int_rest.
- by move=> q; apply: taps_at; rewrite eqxx orbT.
- by apply: finite_taps_rcons fin; rewrite eqxx orbT.
exists (((x - Double.of_Index k) * (n - p) + p)%float), P; split=> //.
apply: lerp_integer (int_x) same_p same_n _.
exact: fin_PN.
Qed.

(** C9 (as amended).  On a raster of [double], at a position whose
    coordinates are exact integers and whose taps, the position and its
    right neighbours along every axis, lie in the domain and hold values
    whose pairwise differences are numbers (no tap is infinite or NaN, no
    subtraction overflows), [Linear] returns the value stored at that
    integer position: the same [double], up to the sign of a zero, hence
    equal under [==]. *)
Theorem at_integer (raster : Raster.t float) (position : seq float) (ks : Position) :
  Raster.wf raster -> 0 < size position -> integer_position position ks ->
  (forall q, corner ks q -> Raster.contains raster q) ->
  finite_taps raster ks [::] ->
  exists v s,
    [/\ at_ raster position = Some v,
        Raster.get raster ks = Some s,
        Double.same v s
      & (v =? s)%float = true].
Proof.
move=> wf_r pos_n0 int_pos taps fin.
have [|||v [s [Ev Es same_vs]]] :=
    @at_rec_integer raster (rev position) (rev ks) [::] _
      (integer_position_rev int_pos).
- by rewrite size_rev.
- by move=> q; rewrite revK cats0 => /taps; apply: Raster.get_some.
- by rewrite revK.
move: Es; rewrite revK cats0 => Es.
exists v, s; split=> //; apply: Double.same_eqb => //.
have := fin ks ks s s (corner_refl _) (corner_refl _); rewrite !cats0 => /(_ Es Es).
by rewrite /Double.number sub_spec; apply: Double.sf_number_sub_r.
Qed.

Lemma corner_rconsP (ks q : Position) (k : Z) :
  corner (rcons ks k) q ->
  exists q' c, [/\ q = rcons q' c, corner ks q' & (c == k) || (c == (k + 1)%Z)].
Proof.
elim: ks q => [|k0 ks IH] [|c0 q] //=.
  by case: q => [|? ?]; rewrite ?andbF // andbT => c_k; exists [::], c0.
move=> /andP [c_k0 /IH [q' [c [-> cor_q' c_k]]]].
by exists (c0 :: q'), c; split=> //=; rewrite c_k0.
Qed.

(** A defined interpolation has read the raster at every tap. *)
Lemma at_rec_corners (raster : Raster.t float) (rposition : seq float)
  (indices : Position) (v : float) :
  at_rec raster rposition indices = Some v ->
  exists2 rks, [seq floor_Index x | x <- rposition] = [seq Some k | k <- rks]
             & forall q, corner (rev rks) q -> isSome (Raster.get raster (q ++ indices)).
Proof.
elim: rposition indices v => [|x rest IH] indices v //=.
case Ef: (floor_Index x) => [f|] //.
have taps rks :
    (forall q, corner (rev rks) q -> isSome (Raster.get raster (q ++ f :: indices))) ->
    (forall q, corner (rev rks) q ->
               isSome (Raster.get raster (q ++ (f + 1)%Z :: indices))) ->
    forall q, corner (rev (f :: rks)) q -> isSome (Raster.get raster (q ++ indices)).
  move=> taps_f taps_f1 q; rewrite rev_cons => /corner_rconsP [q' [c' [-> cor_q']]].
  by rewrite cat_rcons => /orP [] /eqP ->; [apply: taps_f | apply: taps_f1].
case: rest IH => [|y rest] IH.
  case Ep: (Raster.get _ (f :: _)) => [p|] //.
  case En: (Raster.get _ (_ :: _)) => [n|] // _.
  exists [:: f] => //; apply: (taps [::]) => q; case: q => //= _.
  - by rewrite Ep.
  - by rewrite En.
case Ep: (at_rec _ _ (f :: _)) => [p|] //.
case En: (at_rec _ _ (_ :: _)) => [n|] // _.
have [rks Erks taps_f] := IH _ _ Ep.
have [rks' Erks' taps_f1] := IH _ _ En.
have eq_rks : rks' = rks.
  by move: Erks'; rewrite Erks => /(inj_map (@Some_inj _)).
exists (f :: rks); first by move: Erks => /= ->.
by apply: taps => // q; rewrite -eq_rks; apply: taps_f1.
Qed.

(** X19. Whenever [Linear] returns a value, every coordinate has a floor
    and the raster holds all the taps: the floor position and its right
    neighbours, one step or none along each axis.  In particular the
    interpolation is undefined where the floor of a coordinate is the last
    index of its axis, integer positions included. *)
Theorem at_reads_corners (raster : Raster.t float) (position : seq float) (v : float) :
  at_ raster position = Some v ->
  exists2 ks, [seq floor_Index x | x <- position] = [seq Some k | k <- ks]
            & forall q, corner ks q -> Raster.contains raster q.
Proof.
rewrite /at_ => /at_rec_corners [rks Erks taps]; exists (rev rks).
  by rewrite [RHS]map_rev -Erks map_rev revK.
move=> q /taps; rewrite cats0 /Raster.contains /Raster.get.
by case: (Raster.index _ _).
Qed.

End At.

(** A 2x2 raster, read at its first position. *)
Definition square : Raster.t float := Raster.mk [:: 2; 2]%Z [:: 1.5; 2.5; 3.5; 4.5]%float.

Lemma at_integer_witness :
  exists v s,
    [/\ at_ Double.floor square [:: 0; 0]%float = Some v,
        Raster.get square [:: 0; 0]%Z = Some s,
        Double.same v s
      & (v =? s)%float = true].
Proof.
have corners q : corner [:: 0; 0]%Z q ->
    [\/ q = [:: 0; 0]%Z, q = [:: 0; 1]%Z, q = [:: 1; 0]%Z | q = [:: 1; 1]%Z].
  case: q => [|c1 [|c2 [|c3 q]]] //=; rewrite ?andbF // andbT.
  move=> /andP [/orP [] /eqP -> /orP [] /eqP ->].
  - exact: Or41.
  - exact: Or42.
  - exact: Or43.
  - exact: Or44.
apply: (@at_integer Double.floor square [:: 0; 0]%float [:: 0; 0]%Z) => //.
- by move=> q /corners [] ->.
- move=> q q' p n /corners Hq /corners Hq'; rewrite !cats0.
  by case: Hq => ->; case: Hq' => -> [<-] [<-]; vm_compute.
Defined.

Lemma at_reads_corners_witness :
  exists2 ks, [seq Double.floor x | x <- [:: 0; 0]%float] = [seq Some k | k <- ks]
            & forall q, corner ks q -> Raster.contains square q.
Proof.
have E : at_ Double.floor square [:: 0; 0]%float = Some 1.5%float by vm_compute.
exact: (at_reads_corners E).
Defined.

(** A line whose second value is infinite, read at its first position. *)
Definition unbounded : Raster.t float := Raster.mk [:: 2%Z] [:: 1; infinity]%float.

(** C9 (as stated) fails: at the integer position 0 of [unbounded], with
    both taps in the domain, the fractional part is zero and yet
    [0 * (infinity - 1) + 1] is NaN, not the stored 1. *)
Lemma at_integer_counterexample :
  [/\ integer_position Double.floor [:: 0%float] [:: 0%Z],
      Raster.contains unbounded [:: 0%Z] /\ Raster.contains unbounded [:: 1%Z],
      Raster.get unbounded [:: 0%Z] = Some 1%float
    & exists2 v, at_ Double.floor unbounded [:: 0%float] = Some v
               & (v =? 1)%float = false].
Proof.
split.
- by split=> //; split; vm_compute.
- by split; vm_compute.
- by vm_compute.
- by exists nan; vm_compute.
Qed.

End Linear.

Module Constant.

(** [Constant<T>::at(raster, position)]:
    [raster.contains(position) ? raster[position] : m_value]. *)
Definition at_ (T : Type) (m_value : T) (raster : Raster.t T) (position : Position)
  : option T :=
  if Raster.contains raster position then Raster.get raster position else Some m_value.

(** X20. Constant extrapolation is total on a raster whose buffer matches
    its shape: inside the domain it reads the raster, everywhere else (also
    at a position of another dimension) it answers the extrapolation value,
    and it never reads out of the buffer. *)
Theorem at_total (T : Type) (m_value : T) (raster : Raster.t T) (position : Position) :
  Raster.wf raster ->
  exists v,
    [/\ at_ m_value raster position = Some v,
        Raster.contains raster position -> Raster.get raster position = Some v
      & ~~ Raster.contains raster position -> v = m_value].
Proof.
move=> wf_r; rewrite /at_.
case E: (Raster.contains raster position); last by exists m_value.
have := Raster.get_some wf_r E.
by case: (Raster.get raster position) => // v _; exists v.
Qed.

Lemma at_total_witness :
  exists v,
    [/\ at_ 0%Z Nearest.samples [:: 5%Z] = Some v,
        Raster.contains Nearest.samples [:: 5%Z] -> Raster.get Nearest.samples [:: 5%Z] = Some v
      & ~~ Raster.contains Nearest.samples [:: 5%Z] -> v = 0%Z].
Proof. exact: (@at_total Z 0%Z Nearest.samples [:: 5%Z] erefl). Defined.

End Constant.

Module Periodic.

(** The positive modulo of the lambda of [Periodic::at]:
    [auto q = p % s; return q < 0 ? q + s : q;] ([%] truncates, as [Z.rem];
    a null [s] is undefined). *)
Definition modulo (p s : Z) : option Z :=
  if s == 0%Z then None
  else let q := Z.rem p s in Some (if (q <? 0)%Z then (q + s)%Z else q).

(** [position.apply(f, raster.shape())]: the lambda along each axis. *)
Definition wrap (position shape : Position) : option Position :=
  oseq [seq modulo ps.1 ps.2 | ps <- zip position shape].

(** [Periodic::at(raster, position)]. *)
Definition at_ (T : Type) (raster : Raster.t T) (position : Position) : option T :=
  if wrap position (Raster.shape raster) is Some q then Raster.get raster q else None.

Definition positive (shape : Position) : bool := all (fun s => (0 <? s)%Z) shape.

Lemma modulo_mod (p s : Z) : (0 < s)%Z -> modulo p s = Some (p mod s)%Z.
Proof.
move=> s_gt0; rewrite /modulo; case: eqP => [s0|_]; first by lia.
have E := Z.quot_rem' p s.
have B : (- s < Z.rem p s < s)%Z.
  case: (Z_le_gt_dec 0 p) => sign_p.
  - by have := Z.rem_bound_pos p s; lia.
  - by have := Z.rem_bound_pos_neg p s; lia.
congr Some; case: (Z.ltb_spec (Z.rem p s) 0) => sign_r.
- by apply: (Z.mod_unique_pos p s (Z.quot p s - 1)); lia.
- by apply: (Z.mod_unique_pos p s (Z.quot p s)); lia.
Qed.

Lemma wrap_mod (position shape : Position) :
  positive shape ->
  wrap position shape = Some [seq (ps.1 mod ps.2)%Z | ps <- zip position shape].
Proof.
rewrite /wrap /positive.
elim: shape position => [|s shape IH] [|p position] //= /andP [/Z.ltb_lt s_gt0 pos].
by rewrite modulo_mod // IH.
Qed.

Lemma index_wrap (position shape : Position) :
  positive shape -> size position = size shape ->
  isSome (Raster.index shape [seq (ps.1 mod ps.2)%Z | ps <- zip position shape]).
Proof.
rewrite /positive.
elim: shape position => [|s shape IH] [|p position] //= /andP [/Z.ltb_lt s_gt0 pos].
move=> [/(IH _ pos)]; case: (Raster.index _ _) => // i _.
have := Z.mod_pos_bound p s s_gt0 => bounds.
by have -> : (0 <=? p mod s)%Z && (p mod s <? s)%Z by zbool.
Qed.

Lemma wrap_inside (position shape : Position) (i : nat) :
  Raster.index shape position = Some i ->
  [seq (ps.1 mod ps.2)%Z | ps <- zip position shape] = position.
Proof.
elim: shape position i => [|s shape IH] [|p position] i //=.
case: ifP => // /andP [/Z.leb_le p_ge0 /Z.ltb_lt p_lt].
case E: (Raster.index shape position) => [j|] // _.
by rewrite (IH _ _ E) Z.mod_small.
Qed.

(** X21. Periodic extrapolation is total on a raster of positive shape: the
    lambda brings each coordinate to its residue modulo the length of the
    axis, negative coordinates included, the read is in the domain, and
    inside the domain the position is read as it is. *)
Theorem at_spec (T : Type) (raster : Raster.t T) (position : Position) :
  Raster.wf raster -> positive (Raster.shape raster) ->
  size position = size (Raster.shape raster) ->
  exists v,
    [/\ at_ raster position = Some v,
        Raster.get raster
          [seq (ps.1 mod ps.2)%Z | ps <- zip position (Raster.shape raster)] = Some v
      & Raster.contains raster position -> Raster.get raster position = Some v].
Proof.
move=> wf_r pos sz; rewrite /at_ wrap_mod //.
have := Raster.get_some wf_r (index_wrap pos sz).
case E: (Raster.get raster _) => [v|] // _; exists v; split=> //.
rewrite /Raster.contains; case Ei: (Raster.index _ _) => [i|] // _.
by rewrite -E (wrap_inside Ei).
Qed.

Lemma at_spec_witness :
  exists v,
    [/\ at_ Nearest.samples [:: (-1)%Z] = Some v,
        Raster.get Nearest.samples
          [seq (ps.1 mod ps.2)%Z | ps <- zip [:: (-1)%Z] (Raster.shape Nearest.samples)]
        = Some v
      & Raster.contains Nearest.samples [:: (-1)%Z] ->
        Raster.get Nearest.samples [:: (-1)%Z] = Some v].
Proof. exact: (@at_spec Z Nearest.samples [:: (-1)%Z] erefl erefl erefl). Defined.

(** X22. Periodic extrapolation has the shape of the raster for period:
    moving a position by any number of lengths along each axis does not
    change the value read. *)
Theorem at_period (T : Type) (raster : Raster.t T) (position ks : Position) :
  positive (Raster.shape raster) ->
  size position = size (Raster.shape raster) -> size ks = size (Raster.shape raster) ->
  at_ raster
    (Position.add position (Position.zip_with Z.mul ks (Raster.shape raster)))
  = at_ raster position.
Proof.
move=> pos sz_p sz_k; rewrite /at_ !wrap_mod //; congr (Raster.get raster _).
move: pos sz_p sz_k; rewrite /positive /Position.add /Position.zip_with.
elim: (Raster.shape raster) position ks => [|s shape IH] [|p position] [|k ks] //=.
move=> /andP [/Z.ltb_lt s_gt0 pos] [sz_p] [sz_k].
by rewrite IH // Z.mod_add //; lia.
Qed.

Lemma at_period_witness :
  at_ Nearest.samples
    (Position.add [:: 1%Z] (Position.zip_with Z.mul [:: (-2)%Z]
                              (Raster.shape Nearest.samples)))
  = at_ Nearest.samples [:: 1%Z].
Proof. exact: (@at_period Z Nearest.samples [:: 1%Z] [:: (-2)%Z] erefl erefl erefl). Defined.

End Periodic.

Module Cubic.

Section At.

Variable floor_Index : float -> option Z.

(** The polynomial of both overloads of [Cubic::at], from the fractional
    part [d] and the four taps. *)
Definition interpolate (d pp p n nn : float) : float :=
  (p + 0.5 * (d * (- pp + n) + d * d * (2 * pp - 5 * p + 4 * n - nn)
              + d * d * d * (- pp + 3 * p - 3 * n + nn)))%float.

(** [Cubic::at(raster, position, indices...)]: as [Linear::at], with the
    four taps [f - 1], [f], [f + 1] and [f + 2] along each axis. *)
Fixpoint at_rec (raster : Raster.t float) (rposition : seq float) (indices : Position)
  : option float :=
  match rposition with
  | [::] => None
  | x :: rest =>
      match floor_Index x with
      | None => None
      | Some f =>
          let d := (x - Double.of_Index f)%float in
          let tap c :=
            match rest with
            | [::] => Raster.get raster (c :: indices)
            | _ :: _ => at_rec raster rest (c :: indices)
            end in
          match tap (f - 1)%Z, tap f, tap (f + 1)%Z, tap (f + 2)%Z with
          | Some pp, Some p, Some n, Some nn => Some (interpolate d pp p n nn)
          | _, _, _, _ => None
          end
      end
  end.

Definition at_ (raster : Raster.t float) (position : seq float) : option float :=
  at_rec raster (rev position) [::].

End At.

(** A zero of either sign. *)
Definition sf_zero (x : spec_float) : bool := if x is S754_zero _ then true else false.

Lemma sf_zero_mul_l (Z Y : spec_float) :
  sf_zero Z -> Double.sf_number Y -> sf_zero (SF64mul Z Y).
Proof. by case: Z => [sz|?||? ? ?] // _; case: Y => [sy|?||sy my ey]. Qed.

Lemma sf_zero_mul_r (Y Z : spec_float) :
  Double.sf_number Y -> sf_zero Z -> sf_zero (SF64mul Y Z).
Proof. by case: Z => [sz|?||? ? ?] //; case: Y => [sy|?||sy my ey]. Qed.

Lemma sf_zero_add (A B : spec_float) : sf_zero A -> sf_zero B -> sf_zero (SF64add A B).
Proof. by case: A => [[]|?||? ? ?] //; case: B => [[]|?||? ? ?]. Qed.

Lemma sf_same_add_zero (P Z : spec_float) : sf_zero Z -> Double.sf_same (SF64add P Z) P.
Proof.
case: Z => [sz|?||? ? ?] // _; case: P => [sp|sp||sp mp ep]; try by left.
by right; case: sp; case: sz; do 2!eexists.
Qed.

Lemma sf_number_add (A B : spec_float) :
  Double.sf_number (SF64add A B) -> Double.sf_number A /\ Double.sf_number B.
Proof. by case: A => [[]|[]||sa ma ea]; case: B => [[]|[]||sb mb eb]. Qed.

Lemma sf_number_sub (A B : spec_float) :
  Double.sf_number (SF64sub A B) -> Double.sf_number A /\ Double.sf_number B.
Proof. by case: A => [[]|[]||sa ma ea]; case: B => [[]|[]||sb mb eb]. Qed.

Lemma sf_number_mul (A B : spec_float) :
  Double.sf_number (SF64mul A B) -> Double.sf_number A /\ Double.sf_number B.
Proof. by case: A => [[]|[]||[] ma ea]; case: B => [[]|[]||[] mb eb]. Qed.

(** At a null fractional part the polynomial gives back the tap [p], when
    its three combinations of taps are numbers. *)
Lemma interpolate_zero (d pp p n nn : float) :
  sf_zero (Prim2SF d) ->
  Double.number (- pp + n)%float ->
  Double.number (2 * pp - 5 * p + 4 * n - nn)%float ->
  Double.number (- pp + 3 * p - 3 * n + nn)%float ->
  Double.same (interpolate d pp p n nn) p /\ Double.number p.
Proof.
rewrite /Double.number /Double.same /interpolate => zero_d num1 num2 num3; split.
- rewrite add_spec; apply: sf_same_add_zero.
  rewrite mul_spec; apply: sf_zero_mul_r; first by vm_compute.
  rewrite add_spec; apply: sf_zero_add.
    rewrite add_spec; apply: sf_zero_add.
      by rewrite mul_spec; apply: sf_zero_mul_l.
    rewrite mul_spec; apply: sf_zero_mul_l => //.
    by rewrite mul_spec; apply: sf_zero_mul_l => //; case: (Prim2SF d) zero_d.
  rewrite mul_spec; apply: sf_zero_mul_l => //.
  rewrite mul_spec; apply: sf_zero_mul_l; last by case: (Prim2SF d) zero_d.
  by rewrite mul_spec; apply: sf_zero_mul_l => //; case: (Prim2SF d) zero_d.
- move: num2; rewrite sub_spec => /sf_number_sub [].
  rewrite add_spec => /sf_number_add [].
  by rewrite sub_spec => /sf_number_sub [_]; rewrite mul_spec => /sf_number_mul [].
Qed.

(** X23. On a line of [double], at a coordinate that is an exact integer
    [k] whose four taps [k - 1], [k], [k + 1] and [k + 2] lie in the domain,
    [Cubic] returns the value stored at [k] (the same [double], up to the sign
    of a zero, hence equal under [==]) provided the three combinations of taps
    of the polynomial are numbers (no tap is infinite or NaN, nothing
    overflows). *)
Theorem at_integer_line (floor_Index : float -> option Z) (raster : Raster.t float)
  (x : float) (k : Z) (pp p n nn : float) :
  Linear.integer_coordinate floor_Index x k ->
  Raster.get raster [:: (k - 1)%Z] = Some pp -> Raster.get raster [:: k] = Some p ->
  Raster.get raster [:: (k + 1)%Z] = Some n -> Raster.get raster [:: (k + 2)%Z] = Some nn ->
  Double.number (- pp + n)%float ->
  Double.number (2 * pp - 5 * p + 4 * n - nn)%float ->
  Double.number (- pp + 3 * p - 3 * n + nn)%float ->
  exists v,
    [/\ at_ floor_Index raster [:: x] = Some v, Double.same v p & (v =? p)%float = true].
Proof.
move=> [Ef Ek num_x] Epp Ep En Enn num1 num2 num3.
rewrite /at_ /= Ef Epp Ep En Enn Ek.
have zero_d : sf_zero (Prim2SF (x - x)%float) by rewrite Double.sub_self.
have [same_v num_p] := interpolate_zero zero_d num1 num2 num3.
by eexists; split=> //; apply: Double.same_eqb.
Qed.

(** Five samples on a line, read at the integer coordinate 1. *)
Definition samples : Raster.t float := Raster.mk [:: 5%Z] [:: 1.5; 2.5; 0; 4.5; 8]%float.

Lemma at_integer_line_witness :
  exists v,
    [/\ at_ Double.floor samples [:: 1%float] = Some v, Double.same v 2.5%float
      & (v =? 2.5)%float = true].
Proof.
exact: (@at_integer_line Double.floor samples 1%float 1%Z 1.5 2.5 0 4.5).
Defined.

End Cubic.

(** * Affinity ([Linx/Transforms/Affinity.h]) *)

Module Affinity.

Import GRing.Theory.
Local Open Scope ring_scope.

Section Affinity.

(** The scalars and the dimension.  The linear algebra of the class is
    delegated to an external backend that inverts a square real matrix and
    multiplies a matrix by a vector; it is taken here in exact arithmetic,
    over any field. *)
Variable F : fieldType.
Variable N : nat.

(** The linear map, the translation vector and the center. *)
Record t := mk {
  m_map : 'M[F]_N;
  m_translation : 'cV[F]_N;
  m_center : 'cV[F]_N
}.

(** [Affinity(center)]: the identity around a center. *)
Definition make (center : 'cV[F]_N) : t := mk 1%:M 0 center.

(** [inverse()]:
    [m_map = m_map.inverse(); m_translation = -m_map * m_translation]. *)
Definition inverse (A : t) : t :=
  let m_map := invmx (m_map A) in
  let m_translation := (- m_map) *m m_translation A in
  mk m_map m_translation (m_center A).

(** [operator()(in)]:
    [m_translation + m_center + m_map * (in - m_center)]. *)
Definition apply (A : t) (x : 'cV[F]_N) : 'cV[F]_N :=
  m_translation A + m_center A + m_map A *m (x - m_center A).

(** C3 (as amended).  In exact arithmetic, over any field: for an affinity
    whose linear map is not singular, applying the affinity and then its
    inverse gives the point back; [inverse()] replaces the map [a] by its
    inverse and the translation [b] by [- a^-1 b], and keeps the center. *)
Theorem inverse_apply (A : t) (x : 'cV[F]_N) :
  m_map A \in unitmx ->
  [/\ apply (inverse A) (apply A x) = x,
      m_map (inverse A) = invmx (m_map A),
      m_translation (inverse A) = - (invmx (m_map A) *m m_translation A)
    & m_center (inverse A) = m_center A].
Proof.
case: A => a b c /= unit_a; split=> //; last by rewrite mulNmx.
rewrite /apply /inverse /= [b + c + _]addrAC addrK mulmxDr mulKmx // mulNmx.
by rewrite addrACA addNr add0r addrC subrK.
Qed.

End Affinity.

(** A scaling by 2 around (3, 3) followed by a translation by (1, 1), in
    the plane over the rationals. *)
Definition example : t rat 2 := mk 2%:R%:M (const_mx 1) (const_mx 3%:R).

Lemma inverse_apply_witness :
  [/\ apply (inverse example) (apply example (const_mx 5%:R)) = const_mx 5%:R,
      m_map (inverse example) = invmx (m_map example),
      m_translation (inverse example)
      = - (invmx (m_map example) *m m_translation example)
    & m_center (inverse example) = m_center example].
Proof.
apply: (@inverse_apply rat 2 example (const_mx 5%:R)).
by rewrite unitmxE det_scalar unitfE expf_neq0.
Defined.

(** ** The operations that build an affinity up *)

Section Operations.

Variable F : fieldType.
Variable N : nat.

Implicit Types (A : t F N) (vector center x : 'cV[F]_N).

(** Modelled from the spec: the guards [Vector::isZero()] and
    [Vector::isOne()] ([Linx/Data/Vector.h] is not in the source tree) hold
    when every coordinate is 0, respectively 1. *)
Definition isZero vector : bool := vector == 0.
Definition isOne vector : bool := vector == const_mx 1.

(** [operator+=(vector)] and [operator-=(vector)]. *)
Definition add_assign A vector : t F N :=
  if ~~ isZero vector then mk (m_map A) (m_translation A + vector) (m_center A) else A.

Definition sub_assign A vector : t F N :=
  if ~~ isZero vector then mk (m_map A) (m_translation A - vector) (m_center A) else A.

(** [operator*=(value)]:
    [m_map *= EigenVector::Constant(size, value).asDiagonal()]. *)
Definition mul_assign_scalar A (value : F) : t F N :=
  mk (m_map A *m diag_mx (const_mx value)) (m_translation A) (m_center A).

(** [operator*=(vector)] and [operator/=(vector)]. *)
Definition mul_assign A vector : t F N :=
  if ~~ isOne vector
  then mk (m_map A *m diag_mx vector^T) (m_translation A) (m_center A) else A.

Definition div_assign A vector : t F N :=
  if ~~ isOne vector
  then mk (m_map A *m diag_mx (map_mx GRing.inv vector)^T) (m_translation A) (m_center A)
  else A.

(** [operator/=(value)]: [operator*=(1. / value)]. *)
Definition div_assign_scalar A (value : F) : t F N := mul_assign_scalar A (1 / value).

(** The factories [translation(vector)], [scaling(vector, center)] and
    [scaling(scalar, center)]. *)
Definition translation vector : t F N := add_assign (make 0) vector.
Definition scaling vector center : t F N := mul_assign (make center) vector.
Definition scaling_scalar (scalar : F) center : t F N := mul_assign_scalar (make center) scalar.

Lemma apply_make center x : apply (make center) x = x.
Proof. by rewrite /apply /= add0r mul1mx addrC subrK. Qed.

(** X24. Translating an affinity by a vector adds the vector to its
    output, the null vector included (the guard only saves the addition);
    the affinity made by [translation(vector)] maps [x] to [x + vector]; and
    [-=] undoes [+=]. *)
Theorem translation_apply A vector x :
  [/\ apply (add_assign A vector) x = apply A x + vector,
      apply (translation vector) x = x + vector
    & sub_assign (add_assign A vector) vector = A].
Proof.
have E B : apply (add_assign B vector) x = apply B x + vector.
  rewrite /add_assign /isZero; case: eqP => [->|_] /=; first by rewrite addr0.
  by rewrite /apply /= [_ + vector + _]addrAC [RHS]addrAC.
split=> //; first by rewrite /translation E apply_make.
rewrite /sub_assign /add_assign /isZero; case: eqP => //= _.
by case: A => a b c /=; rewrite addrK.
Qed.

(** X25. The affinity made by [scaling] keeps the center fixed and scales
    the offset from the center: by the factor for an isotropic scaling, by
    the factor of each axis for a vector of factors (the guard on a vector of
    ones only saves the product). *)
Theorem scaling_apply (scalar : F) vector center x :
  apply (scaling_scalar scalar center) x = center + scalar *: (x - center)
  /\ forall i, apply (scaling vector center) x i 0
               = center i 0 + vector i 0 * (x i 0 - center i 0).
Proof.
split.
  by rewrite /apply /= add0r mul1mx diag_const_mx mul_scalar_mx.
move=> i; rewrite /scaling /mul_assign /isOne; case: eqP => [->|_].
  by rewrite apply_make !mxE mul1r addrC subrK.
by rewrite /apply /= add0r mul1mx mul_diag_mx !mxE.
Qed.

(** X26. The operations compose on the input side: scaling an affinity
    [A] gives the affinity that first scales its input around the center of
    [A] and then applies [A]. *)
Theorem scaling_first A vector x :
  apply (mul_assign A vector) x = apply A (apply (scaling vector (m_center A)) x).
Proof.
rewrite /scaling /mul_assign /isOne; case: eqP => [_|_]; first by rewrite apply_make.
rewrite /apply /= add0r mul1mx; congr (_ + _).
by rewrite -mulmxA [m_center A + _]addrC addrK.
Qed.

(** X27. Dividing by a vector of factors undoes the multiplication by the
    same vector, when no factor is null. *)
Theorem scale_unscale A vector :
  (forall i, vector i 0 != 0) -> div_assign (mul_assign A vector) vector = A.
Proof.
move=> v_n0; rewrite /div_assign /mul_assign /isOne; case: eqP => //= _.
case: A => a b c /=; congr (mk _ b c).
rewrite mul_mx_diag; apply/matrixP => i j.
by rewrite mul_mx_diag !mxE mulfK.
Qed.

(** X28. Inverting twice an affinity whose linear map is not singular
    gives the affinity back. *)
Theorem inverse_involutive A : m_map A \in unitmx -> inverse (inverse A) = A.
Proof.
case: A => a b c /= unit_a; rewrite /inverse /= invmxK; congr (mk a _ c).
by rewrite !mulNmx mulmxN opprK mulKVmx.
Qed.

(** X29. Resampling through an isotropic scaling ([Affinity::transform],
    [operator*], as [scale], [upsample] and [downsample] do) reads the input,
    for the output position [p], at the position the inverse affinity maps [p]
    to: the center plus the offset of [p] from the center divided by the
    factor. *)
Theorem scaling_inverse_apply (scalar : F) center x :
  scalar != 0 ->
  apply (inverse (scaling_scalar scalar center)) x = center + scalar^-1 *: (x - center).
Proof.
move=> s_n0; rewrite /apply /inverse /= mul1mx diag_const_mx invmx_scalar.
by rewrite mulmx0 add0r mul_scalar_mx.
Qed.

(** Writing one coefficient of a matrix: [rotation(i, j) = v]. *)
Definition set_entry (M : 'M[F]_N) (i j : 'I_N) (v : F) : 'M[F]_N :=
  \matrix_(k, l) if (k == i) && (l == j) then v else M k l.

(** The matrix [rotateRadians] builds, from the identity, by four writes in
    the order of the source; [cos] and [sin] stand for [std::cos(angle)] and
    [std::sin(angle)]. *)
Definition rotation_mx (cos sin : F) (from to : 'I_N) : 'M[F]_N :=
  let rotation := 1%:M in
  let rotation := set_entry rotation from from cos in
  let rotation := set_entry rotation from to (- sin) in
  let rotation := set_entry rotation to from sin in
  set_entry rotation to to cos.

(** [rotateRadians(angle, from, to)]; [angle_null] is the outcome of the
    test [angle != 0] negated. *)
Definition rotateRadians A (angle_null : bool) (cos sin : F) (from to : 'I_N) : t F N :=
  if ~~ angle_null
  then mk (m_map A *m rotation_mx cos sin from to) (m_translation A) (m_center A)
  else A.

Lemma rotation_mxE (cos sin : F) (from to i k : 'I_N) :
  rotation_mx cos sin from to i k
  = if (i == to) && (k == to) then cos
    else if (i == to) && (k == from) then sin
    else if (i == from) && (k == to) then - sin
    else if (i == from) && (k == from) then cos else (i == k)%:R.
Proof. by rewrite /rotation_mx /set_entry !mxE. Qed.

(** X30. What [rotateRadians] does to the offset [d] of a point from the
    center.  Between two different axes it is the plane rotation: the
    coordinate along [from] becomes [cos * d[from] - sin * d[to]], the one
    along [to] becomes [sin * d[from] + cos * d[to]], the others stay.  With
    [from == to] the last of the four writes wins and the map scales that axis
    by [cos].  With [cos = 1] and [sin = 0] (a null angle) the matrix is the
    identity, which is why the guard may skip the product. *)
Theorem rotation_apply (cos sin : F) (from to : 'I_N) (d : 'cV[F]_N) (i : 'I_N) :
  [/\ from != to ->
      (rotation_mx cos sin from to *m d) i 0
      = if i == from then cos * d from 0 - sin * d to 0
        else if i == to then sin * d from 0 + cos * d to 0 else d i 0,
      (rotation_mx cos sin from from *m d) i 0
      = if i == from then cos * d from 0 else d i 0
    & rotation_mx 1 0 from to = 1%:M].
Proof.
have rest (P : pred 'I_N) (R : 'M[F]_N) (j : 'I_N) :
    (forall k, P k -> R j k = 0) -> \sum_(k | P k) R j k * d k 0 = 0.
  by move=> R0; rewrite big1 // => k /R0 ->; rewrite mul0r.
have other (R : 'M[F]_N) :
    (forall k, R i k = (i == k)%:R) -> (R *m d) i 0 = d i 0.
  move=> Rik; rewrite mxE (bigD1 i) //= Rik eqxx mul1r big1 ?addr0 // => k ne_k.
  by rewrite Rik eq_sym (negbTE ne_k) mul0r.
split.
- move=> ne_ft; have ne_tf : to != from by rewrite eq_sym.
  case: (altP (i =P from)) => [->|ne_if].
    rewrite mxE (bigD1 from) //= (bigD1 to) //= rest ?addr0.
      move=> k /andP [ne_kf ne_kt].
      by rewrite rotation_mxE (negbTE ne_kf) (negbTE ne_kt) (negbTE ne_ft) !andbF /=
                 eq_sym (negbTE ne_kf).
    by rewrite !rotation_mxE !eqxx (negbTE ne_ft) /= mulNr.
  case: (altP (i =P to)) => [->|ne_it].
    rewrite mxE (bigD1 from) //= (bigD1 to) //= rest ?addr0.
      move=> k /andP [ne_kf ne_kt].
      by rewrite rotation_mxE (negbTE ne_kf) (negbTE ne_kt) !andbF /= eq_sym
                 (negbTE ne_kt).
    by rewrite !rotation_mxE !eqxx (negbTE ne_tf) (negbTE ne_ft) /=.
  by apply: other => k; rewrite rotation_mxE (negbTE ne_if) (negbTE ne_it).
- case: (altP (i =P from)) => [->|ne_if].
    rewrite mxE (bigD1 from) //= rest ?addr0; last by rewrite rotation_mxE !eqxx.
    by move=> k ne_kf; rewrite rotation_mxE (negbTE ne_kf) !andbF /= eq_sym (negbTE ne_kf).
  by apply: other => k; rewrite rotation_mxE (negbTE ne_if).
- apply/matrixP => k l; rewrite rotation_mxE !mxE oppr0.
  by case: (k =P to) => ?; case: (l =P to) => ?; case: (k =P from) => ?;
     case: (l =P from) => ?; case: (k =P l) => ? //=; congruence.
Qed.

End Operations.

Lemma scale_unscale_witness :
  div_assign (mul_assign example (const_mx 2%:R)) (const_mx 2%:R) = example.
Proof.
apply: (@scale_unscale rat 2 example (const_mx 2%:R)) => i.
by rewrite mxE.
Defined.

Lemma inverse_involutive_witness : inverse (inverse example) = example.
Proof.
apply: (@inverse_involutive rat 2 example).
by rewrite unitmxE det_scalar unitfE expf_neq0.
Defined.

Lemma scaling_inverse_apply_witness :
  apply (inverse (scaling_scalar 2%:R (const_mx 3%:R))) (const_mx 5%:R)
  = const_mx 3%:R + 2%:R^-1 *: (const_mx 5%:R - const_mx 3%:R) :> 'cV[rat]_2.
Proof. exact: (@scaling_inverse_apply rat 2 2%:R (const_mx 3%:R) (const_mx 5%:R) isT). Defined.

End Affinity.

(** * Affinities on [double], on a line *)

Module Affinity64.

(** [Affinity<1>] as the code holds it: the 1x1 linear map, the translation
    and the center are [double]s. *)
Record t := mk { m_map : float; m_translation : float; m_center : float }.

(** [inverse()]:
    [m_map = m_map.inverse(); m_translation = -m_map * m_translation].
    Modelled from the spec: the backend inverts the 1x1 matrix [(a)] into
    [(1 / a)]. *)
Definition inverse (A : t) : t :=
  let m_map := (1 / m_map A)%float in
  let m_translation := (- m_map * m_translation A)%float in
  mk m_map m_translation (m_center A).

(** [operator()(in)]:
    [m_translation + m_center + m_map * (in - m_center)]. *)
Definition apply (A : t) (x : float) : float :=
  (m_translation A + m_center A + m_map A * (x - m_center A))%float.

(** A translation by 1e17, a scaling by 2^600 and a scaling by 3 around
    1e16. *)
Definition shifted : t := mk 1 1e17 0.
Definition stretched : t := mk 0x1p600 0 0.
Definition scaled : t := mk 3 0 1e16.

(** C3 (as stated) fails on [double]: the maps 1, 2^600 and 3 are not
    singular, and yet the translation by 1e17 followed by its inverse sends
    1 to 0 (the sum 1e17 + 1 is rounded to 1e17), the scaling by 2^600
    followed by its inverse sends 2^600 to infinity (the product overflows),
    and the scaling by 3 around 1e16 followed by its inverse sends 1 to 0:
    the error is as large as the point, or infinite. *)
Lemma inverse_apply_counterexample :
  [/\ m_map (inverse shifted) = 1%float
      /\ apply (inverse shifted) (apply shifted 1) = 0%float,
      apply (inverse stretched) (apply stretched 0x1p600) = infinity
    & apply (inverse scaled) (apply scaled 1) = 0%float].
Proof. by split; [split|..]; vm_compute. Qed.

End Affinity64.
